(** * Board view: record-order reconciliation and column reordering

    A shallow embedding of the event handlers of
    [src/ui/views/Board/BoardView.svelte] ([handleRecordUpdate],
    [handleSortColumns], [saveConfig] and the reactive [orderSyncField]),
    together with the properties of the persisted per-column record order
    and of the record updates the handlers emit. *)

From Stdlib Require Import ZArith.
From stdpp Require Import base option list strings gmap.

Local Open Scope Z_scope.

(* The solvers of stdpp clear hypotheses that may be gone already. *)
#[local] Set Warnings "-clear-no-such-hyp".

(** ** JavaScript array primitives used by the handlers *)

Module JsArray.

(** [Array.prototype.findIndex]: index of the first element satisfying the
    predicate, [-1] when there is none. *)
Definition findIndex {A} (P : A → Prop) `{!∀ x, Decision (P x)}
    (l : list A) : Z :=
  match list_find P l with
  | Some (i, _) => Z.of_nat i
  | None => -1
  end.

(** [Array.prototype.find]: the first element satisfying the predicate,
    [undefined] when there is none. *)
Definition find {A} (P : A → Prop) `{!∀ x, Decision (P x)}
    (l : list A) : option A :=
  snd <$> list_find P l.

(** [arr[i]] for a numeric [i]: [undefined] outside [0 .. length-1], in
    particular for the negative indices [findIndex] can lead to. *)
Definition get {A} (l : list A) (i : Z) : option A :=
  if decide (0 ≤ i) then l !! Z.to_nat i else None.

(** [arr.splice(start, deleteCount, ...items)], returning the array after
    the mutation.  A negative [start] counts from the end; [start] and
    [deleteCount] are clamped to the array. *)
Definition splice {A} (l : list A) (start : Z) (deleteCount : nat)
    (items : list A) : list A :=
  let len := Z.of_nat (length l) in
  let s := Z.to_nat (if decide (start < 0) then Z.max (len + start) 0
                     else Z.min start len) in
  take s l ++ items ++ drop (s + deleteCount)%nat l.

End JsArray.

(** ** Data model *)

(** Values of a record's fields.  The handlers only ever compare a stored
    value with an array index by [!==] and write strings and indices, so
    every value that is not an integer number (booleans, dates, lists,
    [null], fractional numbers) is kept as an uninterpreted payload. *)
Inductive DataValue :=
  | VNumber (n : Z)
  | VString (s : string)
  | VOther (payload : string).

#[global] Instance DataValue_eq_dec : EqDecision DataValue.
Proof. solve_decision. Defined.

(** [DataRecord]: [{ id, values }].  The projections carry a prefix because
    [id] is the identity function of the standard library. *)
Record DataRecord := mkRecord {
  rec_id : string;
  rec_values : gmap string DataValue;
}.

#[global] Instance DataRecord_eq_dec : EqDecision DataRecord.
Proof. solve_decision. Defined.

(** [DataField]: only the name is read by the board handlers. *)
Record DataField := mkField {
  field_name : string;
  field_type : string;
}.

#[global] Instance DataField_eq_dec : EqDecision DataField.
Proof. solve_decision. Defined.

(** The properties of a JSON object that the handlers copy by spread syntax
    without looking at them are kept as a map from property name to the
    serialised value, [gmap string string]. *)

(** Per-column settings: [{ weight?, records?, ... }]. *)
Record ColumnSettings := mkColumn {
  col_weight : option Z;
  col_records : option (list string);
  col_rest : gmap string string;
}.

#[global] Instance ColumnSettings_eq_dec : EqDecision ColumnSettings.
Proof. solve_decision. Defined.

(** [BoardConfig]: [{ orderSyncField?, columns?, ... }]. *)
Record BoardConfig := mkConfig {
  cfg_orderSyncField : option string;
  cfg_columns : option (gmap string ColumnSettings);
  cfg_rest : gmap string string;
}.

#[global] Instance BoardConfig_eq_dec : EqDecision BoardConfig.
Proof. solve_decision. Defined.

(** Modelled from the spec: the trigger type of [OnRecordUpdate] is declared
    in [./components/Board/types], which is not part of the sources at hand.
    The spec lists three triggers; the handler compares the trigger with
    ["addToColumn"] and ["removeFromColumn"] only. *)
Inductive DropTrigger :=
  | addToColumn
  | removeFromColumn
  | reorderWithinColumn.

#[global] Instance DropTrigger_eq_dec : EqDecision DropTrigger.
Proof. solve_decision. Defined.

(** The props and the local state of the component that the handlers read:
    [frame.fields], [getRecord], [hasSort], [hasFilter] and [config]. *)
Record BoardView := mkView {
  fields : list DataField;
  getRecord : string → option DataRecord;
  hasSort : bool;
  hasFilter : bool;
  config : option BoardConfig;
}.

(** What a handler does to the outside world, in order: calls of the
    [onConfigChange] prop and of [api.updateRecord]. *)
Inductive Effect :=
  | OnConfigChange (cfg : BoardConfig)
  | UpdateRecord (r : DataRecord) (fs : list DataField).

(** ** Helpers imported by the component *)

(** JavaScript truthiness of a string. *)
Definition truthy (s : string) : bool := negb (String.eqb s "").

(** Modelled from the spec: [updateRecordValues] ([src/lib/datasources/helpers])
    is not part of the sources at hand.  It returns a copy of the record, with
    the same id, in which the given values replace the stored ones. *)
Definition updateRecordValues (r : DataRecord)
    (vs : gmap string DataValue) : DataRecord :=
  {| rec_id := rec_id r; rec_values := vs ∪ rec_values r |}.

(** Modelled from the spec: [getFieldByName] ([./board]) is not part of the
    sources at hand.  Fields are identified by their name, unique within a
    frame. *)
Definition getFieldByName (fs : list DataField) (name : string)
    : option DataField :=
  JsArray.find (λ f, field_name f = name) fs.

(** [notUndefined] after [map]: keep the defined results. *)
Definition mapDefined {A B} (f : A → option B) (l : list A) : list B :=
  omap f l.

(** ** The component *)

(** The reactive declaration
    [orderSyncField = (config?.orderSyncField && getFieldByName(...)) || undefined]. *)
Definition orderSyncField (v : BoardView) : option DataField :=
  c ← config v;
  name ← cfg_orderSyncField c;
  if truthy name then getFieldByName (fields v) name else None.

(** [orderSyncField?.name], as tested for truthiness by the handler. *)
Definition orderSyncFieldName (v : BoardView) : option string :=
  f ← orderSyncField v;
  if truthy (field_name f) then Some (field_name f) else None.

(** [saveConfig]: the component keeps the new config and reports it. *)
Definition saveConfig (v : BoardView) (cfg : BoardConfig)
    : BoardView * list Effect :=
  (mkView (fields v) (getRecord v) (hasSort v) (hasFilter v) (Some cfg),
   [OnConfigChange cfg]).

(** [config?.columns?.[column]] *)
Definition configColumn (v : BoardView) (column : string)
    : option ColumnSettings :=
  c ← config v; cols ← cfg_columns c; cols !! column.

(** [config?.columns?.[column]?.records?.map((r) => getRecord(r)).filter(notUndefined)] *)
Definition loadConfigRecords (v : BoardView) (column : string)
    : option (list DataRecord) :=
  cs ← configColumn v column;
  ids ← col_records cs;
  Some (mapDefined (getRecord v) ids).

(** [(r) => r.id === record.id] *)
Definition sameId (record r : DataRecord) : Prop := rec_id r = rec_id record.

#[global] Instance sameId_dec record r : Decision (sameId record r).
Proof. unfold sameId. apply _. Defined.

(** The position at which a record added under a filter is spliced into
    [configRecords] (lines 106-122): after the record before it in the
    column as shown, else before the record after it, else at the end. *)
Definition filterPosition (record : DataRecord)
    (records configRecords : list DataRecord) : Z :=
  let index := JsArray.findIndex (sameId record) records in
  let before := JsArray.get records (index - 1) in
  let after := JsArray.get records (index + 1) in
  let position := -1 in
  let position :=
    match before with
    | Some b =>
        let beforeIndex := JsArray.findIndex (sameId b) configRecords in
        if negb (beforeIndex =? -1) then beforeIndex + 1 else position
    | None => position
    end in
  let position :=
    match after with
    | Some a =>
        if position =? -1 then JsArray.findIndex (sameId a) configRecords
        else position
    | None => position
    end in
  if position =? -1 then Z.of_nat (length configRecords) else position.

(** The updates of [configRecords] in the body of [if (configRecords)]
    (lines 84-126). *)
Definition placeRecord (v : BoardView) (record : DataRecord)
    (records : list DataRecord) (trigger : DropTrigger)
    (configRecords : list DataRecord) : list DataRecord :=
  let configRecordIndex := JsArray.findIndex (sameId record) configRecords in
  let isRecordInConfig := negb (configRecordIndex =? -1) in
  let configRecords :=
    if isRecordInConfig &&
       (bool_decide (trigger = removeFromColumn) || negb (hasSort v))
    then JsArray.splice configRecords configRecordIndex 1 []
    else configRecords in
  if bool_decide (trigger = addToColumn) then
    if hasSort v then
      if negb isRecordInConfig then configRecords ++ [record]
      else configRecords
    else if hasFilter v then
      JsArray.splice configRecords
        (filterPosition record records configRecords) 0 [record]
    else configRecords
  else configRecords.

(** The records of the column that are not in [configRecords] and are not
    the mutated record (lines 132-136). *)
Definition remainingRecords (record : DataRecord)
    (records configRecords : list DataRecord) : list DataRecord :=
  filter (λ r1, rec_id r1 ≠ rec_id record ∧
                JsArray.find (sameId r1) configRecords = None) records.

(** The new value of [records] when the column has a list in the config
    (lines 84-137). *)
Definition reconcile (v : BoardView) (record : DataRecord)
    (records : list DataRecord) (trigger : DropTrigger)
    (configRecords : list DataRecord) : list DataRecord :=
  let configRecords := placeRecord v record records trigger configRecords in
  configRecords ++ remainingRecords record records configRecords.

(** Lines 77-140: the final [records] and [isConfigRecordsLoaded]. *)
Definition finalRecords (v : BoardView) (record : DataRecord)
    (column : string) (records : list DataRecord) (trigger : DropTrigger)
    : list DataRecord * bool :=
  if hasSort v || hasFilter v then
    match loadConfigRecords v column with
    | Some configRecords =>
        (reconcile v record records trigger configRecords, true)
    | None => (records, false)
    end
  else (records, false).

(** [{ ...config?.columns?.[column], records }] *)
Definition withRecords (old : option ColumnSettings) (ids : list string)
    : ColumnSettings :=
  {| col_weight := old ≫= col_weight;
     col_records := Some ids;
     col_rest := from_option col_rest ∅ old |}.

(** [{ ...config, columns }] *)
Definition withColumns (old : option BoardConfig)
    (cols : gmap string ColumnSettings) : BoardConfig :=
  {| cfg_orderSyncField := old ≫= cfg_orderSyncField;
     cfg_columns := Some cols;
     cfg_rest := from_option cfg_rest ∅ old |}.

(** [{ ...config?.columns }] *)
Definition spreadColumns (old : option BoardConfig)
    : gmap string ColumnSettings :=
  default ∅ (old ≫= cfg_columns).

(** The argument of [saveConfig] at lines 142-151. *)
Definition recordsConfig (v : BoardView) (column : string)
    (records : list DataRecord) : BoardConfig :=
  withColumns (config v)
    (<[column := withRecords (configColumn v column) (rec_id <$> records)]>
       (spreadColumns (config v))).

(** [r.values[orderSyncFieldName] !== i] *)
Definition differsFromIndex (r : DataRecord) (name : string) (i : nat)
    : bool :=
  bool_decide (rec_values r !! name ≠ Some (VNumber (Z.of_nat i))).

(** The callback of [records.forEach] at lines 164-176: the record pushed to
    [recordsToUpdate] for the element [r] at index [i], if any. *)
Definition syncUpdate (record : DataRecord) (name : string)
    (i : nat) (r : DataRecord) : option DataRecord :=
  let recordToUpdate :=
    if decide (rec_id r = rec_id record) then Some record
    else if differsFromIndex r name i then Some r else None in
  (λ u, updateRecordValues u {[name := VNumber (Z.of_nat i)]})
    <$> recordToUpdate.

(** Lines 157-179: [recordsToUpdate]. *)
Definition recordsToUpdate (v : BoardView) (record : DataRecord)
    (records : list DataRecord) (isConfigRecordsLoaded : bool)
    : list DataRecord :=
  match orderSyncFieldName v with
  | Some name =>
      if isConfigRecordsLoaded || negb (hasSort v) then
        omap id (imap (syncUpdate record name) records)
      else [record]
  | None => [record]
  end.

(** Lines 69-73: the record carries the key of its new column. *)
Definition stampGroupBy (groupByField : option DataField) (column : string)
    (trigger : DropTrigger) (record : DataRecord) : DataRecord :=
  match groupByField with
  | Some f =>
      if bool_decide (trigger = addToColumn) && truthy (field_name f)
      then updateRecordValues record {[field_name f := VString column]}
      else record
  | None => record
  end.

(** [handleRecordUpdate(groupByField)(record, { id: column, records }, trigger)]:
    the component after the call and the effects of the call, in order. *)
Definition handleRecordUpdate (v : BoardView)
    (groupByField : option DataField) (record : DataRecord)
    (column : string) (records : list DataRecord) (trigger : DropTrigger)
    : BoardView * list Effect :=
  let record := stampGroupBy groupByField column trigger record in
  let '(records, isConfigRecordsLoaded) :=
    finalRecords v record column records trigger in
  let '(v', saved) := saveConfig v (recordsConfig v column records) in
  let updates :=
    if bool_decide (trigger ≠ removeFromColumn) then
      recordsToUpdate v record records isConfigRecordsLoaded
    else [] in
  (v', saved ++ ((λ r, UpdateRecord r (fields v)) <$> updates)).

(** [Object.fromEntries]: later entries overwrite earlier ones. *)
Definition fromEntries {V} (entries : list (string * V)) : gmap string V :=
  foldl (λ m kv, <[kv.1 := kv.2]> m) ∅ entries.

(** [{ ...config?.columns?.[name], weight: i }] *)
Definition withWeight (old : option ColumnSettings) (i : nat)
    : ColumnSettings :=
  {| col_weight := Some (Z.of_nat i);
     col_records := old ≫= col_records;
     col_rest := from_option col_rest ∅ old |}.

(** [handleSortColumns(names)] *)
Definition handleSortColumns (v : BoardView) (names : list string)
    : BoardView * list Effect :=
  saveConfig v
    (withColumns (config v)
       (fromEntries
          (imap (λ i name, (name, withWeight (configColumn v name) i))
             names))).

(** ** Observations of a call *)

(** The config the component holds after a handler ran. *)
Definition savedConfig (out : BoardView * list Effect) : option BoardConfig :=
  config out.1.

(** The record-id list persisted for a column. *)
Definition persistedIds (cfg : option BoardConfig) (column : string)
    : option (list string) :=
  c ← cfg; cols ← cfg_columns c; cs ← cols !! column; col_records cs.

(** The records handed to [api.updateRecord], in call order. *)
Definition updatedRecords (effects : list Effect) : list DataRecord :=
  omap (λ e, match e with UpdateRecord r _ => Some r | _ => None end) effects.

(** The column of a config, [config.columns[k]], as the handlers read it. *)
Definition columnOf (cfg : BoardConfig) (k : string) : option ColumnSettings :=
  cols ← cfg_columns cfg; cols !! k.

(** ** Notions used in the statements *)

(** The index at which an id resolves in a list of records: the index of the
    first record with that id. *)
Definition indexOfId (i : string) (l : list DataRecord) : option nat :=
  fst <$> list_find (λ r, rec_id r = i) l.

(** A list of records without the first record that has the given id. *)
Definition removeFirstId (i : string) (l : list DataRecord)
    : list DataRecord :=
  match indexOfId i l with
  | Some k => take k l ++ drop (S k) l
  | None => l
  end.

(** A list with [x] inserted so that it ends up at index [n]. *)
Definition insertAt {A} (n : nat) (x : A) (l : list A) : list A :=
  take n l ++ x :: drop n l.

(** [getRecord] is a lookup by id: the record it returns for an id has that
    id. *)
Definition resolvesById (v : BoardView) : Prop :=
  ∀ i r, getRecord v i = Some r → rec_id r = i.

(** The component with another config. *)
Definition setConfig (v : BoardView) (cfg : option BoardConfig) : BoardView :=
  mkView (fields v) (getRecord v) (hasSort v) (hasFilter v) cfg.

(** The empty objects [{}] that can stand for an absent config and for an
    absent column entry, and a config whose absent [columns] is [{}]. *)
Definition emptyConfig : BoardConfig := mkConfig None None ∅.
Definition emptyColumn : ColumnSettings := mkColumn None None ∅.
Definition setColumns (c : BoardConfig) (cols : gmap string ColumnSettings)
    : BoardConfig :=
  mkConfig (cfg_orderSyncField c) (Some cols) (cfg_rest c).

(** ** The plugin: settings and the "create-record" command ([src/main.ts]) *)

Module Plugin.

(** [ViewDefinition]; the [config] of a view is kept as serialised
    properties. *)
Record ViewDefinition := mkViewDefinition {
  view_name : string;
  view_id : string;
  view_type : string;
  view_config : gmap string string;
}.

(** [WorkspaceDefinition] *)
Record WorkspaceDefinition := mkWorkspace {
  ws_name : string;
  ws_id : string;
  ws_path : string;
  ws_recursive : bool;
  ws_views : list ViewDefinition;
  ws_noteTemplate : string;
  ws_templateFolder : string;
}.

(** [ProjectsPluginSettings] *)
Record ProjectsPluginSettings := mkSettings {
  lastWorkspaceId : option string;
  lastViewId : option string;
  workspaces : list WorkspaceDefinition;
}.

(** [Partial<ProjectsPluginSettings>]: what [loadData] returns when there is
    saved data, any property of which can be missing. *)
Record PartialSettings := mkPartial {
  saved_lastWorkspaceId : option string;
  saved_lastViewId : option string;
  saved_workspaces : option (list WorkspaceDefinition);
}.

(** [DEFAULT_SETTINGS = { workspaces: [] }] *)
Definition DEFAULT_SETTINGS : PartialSettings :=
  mkPartial None None (Some []).

(** [Object.assign(target, source)] on settings objects: the properties of
    the source replace those of the target. *)
Definition assign (target source : PartialSettings) : PartialSettings :=
  mkPartial
    (from_option Some (saved_lastWorkspaceId target)
       (saved_lastWorkspaceId source))
    (from_option Some (saved_lastViewId target) (saved_lastViewId source))
    (from_option Some (saved_workspaces target) (saved_workspaces source)).

(** [Object.assign({}, DEFAULT_SETTINGS, await this.loadData())] (line 166),
    where [loadData] gives [null] when nothing was saved.  The store holds
    the result as [ProjectsPluginSettings]. *)
Definition loadSettings (data : option PartialSettings)
    : ProjectsPluginSettings :=
  let merged :=
    assign (assign (mkPartial None None None) DEFAULT_SETTINGS)
      (default (mkPartial None None None) data) in
  mkSettings (saved_lastWorkspaceId merged) (saved_lastViewId merged)
    (default [] (saved_workspaces merged)).

(** The updater both workspace modals hand to [settings.update] (lines 74-81
    and 111-116): [produce(state, draft => { draft.workspaces.push(workspace) })]. *)
Definition addWorkspace (state : ProjectsPluginSettings)
    (workspace : WorkspaceDefinition) : ProjectsPluginSettings :=
  mkSettings (lastWorkspaceId state) (lastViewId state)
    (workspaces state ++ [workspace]).

(** What the command does besides returning: it opens the modal for a
    workspace. *)
Inductive CommandEffect :=
  | OpenCreateRecordModal (workspace : WorkspaceDefinition).

(** The [checkCallback] of the "create-record" command (lines 127-148): the
    returned flag and the effects. *)
Definition createRecordCheckCallback (settings : ProjectsPluginSettings)
    (checking : bool) : bool * list CommandEffect :=
  match workspaces settings !! 0%nat with
  | Some workspace =>
      (true, if negb checking then [OpenCreateRecordModal workspace] else [])
  | None => (false, [])
  end.

End Plugin.

(** ** Sample boards *)

Module Sample.

(** A note with no field values, and a note with a number in one field. *)
Definition note (i : string) : DataRecord := mkRecord i ∅.
Definition noteAt (i field : string) (n : Z) : DataRecord :=
  mkRecord i {[field := VNumber n]}.

(** A [getRecord] as a hosting view provides it: the record of the frame
    with the given id. *)
Definition lookup (frame : list DataRecord) (i : string)
    : option DataRecord :=
  JsArray.find (λ r, rec_id r = i) frame.

Definition orderField : DataField := mkField "order" "number".

Definition board (sort filter : bool) (frame : list DataRecord)
    (cfg : option BoardConfig) : BoardView :=
  mkView [orderField] (lookup frame) sort filter cfg.

(** A config with a record list for one column, without and with an
    order-sync field. *)
Definition persisted (column : string) (ids : list string) : BoardConfig :=
  mkConfig None (Some {[column := mkColumn None (Some ids) ∅]}) ∅.
Definition persistedSynced (column : string) (ids : list string)
    : BoardConfig :=
  mkConfig (Some "order")
    (Some {[column := mkColumn None (Some ids) ∅]}) ∅.

Definition A : DataRecord := note "A".
Definition B : DataRecord := note "B".
Definition C : DataRecord := note "C".

End Sample.

(** ** Facts about the array primitives *)

(** Closed decidable propositions ([NoDup], membership), by evaluation. *)
Ltac by_evaluation := apply (bool_decide_unpack _); vm_compute; exact I.

Section array_facts.
Context {A : Type} (P : A → Prop) `{!∀ x, Decision (P x)}.
Implicit Types l : list A.

Lemma findIndex_none l :
  JsArray.findIndex P l = -1 ↔ Forall (λ x, ¬ P x) l.
Proof.
  unfold JsArray.findIndex.
  destruct (list_find P l) as [[i x]|] eqn:E.
  - split; [lia|]. intros Hf. apply (list_find_None P) in Hf. congruence.
  - by apply list_find_None in E.
Qed.

Lemma findIndex_range l :
  JsArray.findIndex P l = -1 ∨
  0 ≤ JsArray.findIndex P l < Z.of_nat (length l).
Proof.
  unfold JsArray.findIndex.
  destruct (list_find P l) as [[k x]|] eqn:E; [right|by left].
  apply list_find_Some in E as (E%lookup_lt_Some & _). lia.
Qed.

Lemma find_none l : JsArray.find P l = None ↔ Forall (λ x, ¬ P x) l.
Proof.
  unfold JsArray.find.
  destruct (list_find P l) as [[i x]|] eqn:E; simpl.
  - split; [done|]. intros Hf. apply (list_find_None P) in Hf. congruence.
  - by apply list_find_None in E.
Qed.

Lemma splice_insert l (n : nat) x :
  (n ≤ length l)%nat →
  JsArray.splice l (Z.of_nat n) 0 [x] = take n l ++ x :: drop n l.
Proof.
  intros Hn. unfold JsArray.splice.
  rewrite decide_False by lia.
  replace (Z.to_nat (Z.of_nat n `min` Z.of_nat (length l))) with n by lia.
  by rewrite Nat.add_0_r.
Qed.

Lemma splice_delete l (n : nat) :
  JsArray.splice l (Z.of_nat n) 1 [] = take n l ++ drop (S n) l.
Proof.
  unfold JsArray.splice. rewrite decide_False by lia.
  destruct (decide (n ≤ length l)%nat).
  - replace (Z.to_nat (Z.of_nat n `min` Z.of_nat (length l))) with n by lia.
    simpl. by rewrite Nat.add_1_r.
  - replace (Z.to_nat (Z.of_nat n `min` Z.of_nat (length l)))
      with (length l) by lia.
    simpl. rewrite !take_ge, !drop_ge by lia. done.
Qed.
End array_facts.

Lemma fromEntries_snoc {V} (entries : list (string * V)) k x :
  fromEntries (entries ++ [(k, x)]) = <[k := x]> (fromEntries entries).
Proof. unfold fromEntries. by rewrite foldl_app. Qed.

Lemma fromEntries_imap_dom {V} (f : nat → string → V) (names : list string) :
  dom (fromEntries (imap (λ i name, (name, f i name)) names))
  = list_to_set names.
Proof.
  induction names as [|name names IH] using rev_ind; [done|].
  rewrite imap_app. simpl. rewrite fromEntries_snoc, dom_insert_L, IH.
  rewrite list_to_set_app_L. set_solver.
Qed.

Lemma fromEntries_imap_last {V} (f : nat → string → V) (names : list string)
    (i : nat) (name : string) :
  names !! i = Some name →
  (∀ j, (i < j)%nat → names !! j ≠ Some name) →
  fromEntries (imap (λ i name, (name, f i name)) names) !! name
  = Some (f i name).
Proof.
  revert i. induction names as [|x names IH] using rev_ind; [done|].
  intros i Hi Hlast. rewrite imap_app. simpl.
  rewrite fromEntries_snoc, Nat.add_0_r.
  destruct (decide (i = length names)) as [->|Hne].
  - rewrite lookup_app_r, Nat.sub_diag in Hi by lia.
    injection Hi as ->. by rewrite lookup_insert_eq.
  - assert (i < length names)%nat as Hlt.
    { apply lookup_lt_Some in Hi. rewrite length_app in Hi. simpl in Hi. lia. }
    rewrite lookup_app_l in Hi by done.
    rewrite lookup_insert_ne.
    + apply IH; [done|]. intros j Hj Hjn. apply (Hlast j Hj).
      by apply lookup_app_l_Some.
    + intros ->. apply (Hlast (length names) Hlt).
      rewrite lookup_app_r, Nat.sub_diag by lia. done.
Qed.

(** ** What a call of [handleRecordUpdate] saves *)

Lemma handleRecordUpdate_saved v g record column records trigger :
  savedConfig (handleRecordUpdate v g record column records trigger)
  = Some (recordsConfig v column
      (finalRecords v (stampGroupBy g column trigger record)
         column records trigger).1).
Proof.
  unfold handleRecordUpdate, savedConfig.
  by destruct (finalRecords _ _ _ _ _) as [recs loaded].
Qed.

Lemma handleRecordUpdate_effects v g record column records trigger :
  (handleRecordUpdate v g record column records trigger).2
  = let record' := stampGroupBy g column trigger record in
    let fr := finalRecords v record' column records trigger in
    OnConfigChange (recordsConfig v column fr.1)
    :: ((λ r, UpdateRecord r (fields v)) <$>
          (if bool_decide (trigger ≠ removeFromColumn)
           then recordsToUpdate v record' fr.1 fr.2 else [])).
Proof.
  unfold handleRecordUpdate.
  by destruct (finalRecords _ _ _ _ _) as [recs loaded].
Qed.

Lemma updatedRecords_cons_config cfg effects :
  updatedRecords (OnConfigChange cfg :: effects) = updatedRecords effects.
Proof. done. Qed.

Lemma updatedRecords_fmap rs fs :
  updatedRecords ((λ r, UpdateRecord r fs) <$> rs) = rs.
Proof.
  unfold updatedRecords. induction rs as [|r rs IH]; [done|].
  simpl. f_equal. exact IH.
Qed.

Lemma handleRecordUpdate_updates v g record column records trigger :
  updatedRecords (handleRecordUpdate v g record column records trigger).2
  = let record' := stampGroupBy g column trigger record in
    let fr := finalRecords v record' column records trigger in
    if bool_decide (trigger ≠ removeFromColumn)
    then recordsToUpdate v record' fr.1 fr.2 else [].
Proof.
  rewrite handleRecordUpdate_effects. cbv zeta.
  by rewrite updatedRecords_cons_config, updatedRecords_fmap.
Qed.

Lemma persistedIds_recordsConfig v column records :
  persistedIds (Some (recordsConfig v column records)) column
  = Some (rec_id <$> records).
Proof.
  unfold persistedIds, recordsConfig. simpl. by rewrite lookup_insert_eq.
Qed.

Lemma handleRecordUpdate_persisted v g record column records trigger :
  persistedIds
    (savedConfig (handleRecordUpdate v g record column records trigger)) column
  = Some (rec_id <$>
      (finalRecords v (stampGroupBy g column trigger record)
         column records trigger).1).
Proof. by rewrite handleRecordUpdate_saved, persistedIds_recordsConfig. Qed.

Lemma stampGroupBy_id g column trigger record :
  rec_id (stampGroupBy g column trigger record) = rec_id record.
Proof.
  unfold stampGroupBy. destruct g as [f|]; [|done].
  by destruct (_ && _).
Qed.

(** C9.  A [removeFromColumn] event calls [api.updateRecord] for no record:
    its only effect is the [onConfigChange] call, and the config it saves
    differs from the previous one in the record list of the target column
    only (the other properties of the config, the other columns and the
    other properties of the target column are the previous ones). *)
Theorem remove_emits_no_record_update v g record column records :
  let out := handleRecordUpdate v g record column records removeFromColumn in
  updatedRecords out.2 = [] ∧
  ∃ cfg ids,
    out.2 = [OnConfigChange cfg] ∧ savedConfig out = Some cfg ∧
    cfg_orderSyncField cfg = config v ≫= cfg_orderSyncField ∧
    cfg_rest cfg = from_option cfg_rest ∅ (config v) ∧
    (∀ k, k ≠ column → columnOf cfg k = configColumn v k) ∧
    columnOf cfg column
    = Some {| col_weight := configColumn v column ≫= col_weight;
              col_records := Some ids;
              col_rest := from_option col_rest ∅ (configColumn v column) |}.
Proof.
  intros out. subst out. split.
  - by rewrite handleRecordUpdate_updates.
  - eexists _, _. rewrite handleRecordUpdate_effects, handleRecordUpdate_saved.
    simpl. split_and!; try done.
    + intros k Hk. unfold columnOf, recordsConfig, configColumn, spreadColumns.
      simpl. rewrite lookup_insert_ne by done.
      destruct (config v) as [c|]; simpl; [|done].
      by destruct (cfg_columns c).
    + unfold columnOf, recordsConfig. simpl. by rewrite lookup_insert_eq.
Qed.

(** C10.  A column-reorder event saves a config whose [columns] has exactly
    the given names as keys.  A name keeps the records and the other
    properties its column had, and its weight is the index of its (last)
    occurrence in the list; a column that is not in the list has no entry
    any more.  The other properties of the config are kept. *)
Theorem sort_columns_rebuilds_columns v names :
  let out := handleSortColumns v names in
  ∃ cfg cols,
    out.2 = [OnConfigChange cfg] ∧ savedConfig out = Some cfg ∧
    cfg_columns cfg = Some cols ∧
    cfg_orderSyncField cfg = config v ≫= cfg_orderSyncField ∧
    cfg_rest cfg = from_option cfg_rest ∅ (config v) ∧
    dom cols = list_to_set names ∧
    (∀ k, k ∉ names → cols !! k = None) ∧
    (∀ i name, names !! i = Some name →
       (∀ j, (i < j)%nat → names !! j ≠ Some name) →
       cols !! name
       = Some {| col_weight := Some (Z.of_nat i);
                 col_records := configColumn v name ≫= col_records;
                 col_rest := from_option col_rest ∅ (configColumn v name) |}) ∧
    (NoDup names → ∀ i name, names !! i = Some name →
       (cols !! name) ≫= col_weight = Some (Z.of_nat i)).
Proof.
  intros out. subst out. unfold handleSortColumns, saveConfig, savedConfig.
  simpl. eexists _, _. split_and!; try done.
  - apply fromEntries_imap_dom.
  - intros k Hk. apply not_elem_of_dom.
    rewrite fromEntries_imap_dom. by rewrite elem_of_list_to_set.
  - intros i name Hi Hlast.
    by rewrite (fromEntries_imap_last _ _ i name).
  - intros Hnd i name Hi.
    rewrite (fromEntries_imap_last _ _ i name); [done|done|].
    intros j Hij Hj. assert (i = j) by by eapply NoDup_lookup. lia.
Qed.

(** ** The order-sync updates *)

Lemma elem_of_omap_imap {A B} (f : nat → A → option B) (l : list A) (y : B) :
  y ∈ omap id (imap f l) ↔ ∃ i x, l !! i = Some x ∧ f i x = Some y.
Proof.
  rewrite list_elem_of_omap. split.
  - intros (o & Ho & Hid). simpl in Hid. subst o. apply elem_of_lookup_imap in Ho as (i & x & -> & Hx).
    by exists i, x.
  - intros (i & x & Hx & Hf). exists (Some y). split; [|done].
    rewrite <- Hf. by apply elem_of_lookup_imap_2.
Qed.

Lemma length_omap_imap {A B} (f : nat → A → option B) (l : list A) :
  length (omap id (imap f l))
  = length (filter (λ p, is_Some (f p.1 p.2)) (imap pair l)).
Proof.
  revert f. induction l as [|x l IH]; intros f; [done|].
  simpl. rewrite filter_cons. simpl.
  specialize (IH (f ∘ S)).
  replace (imap (pair ∘ S) l) with (prod_map S id <$> imap pair l).
  2:{ rewrite fmap_imap. by apply imap_ext. }
  assert (length (filter (λ p, is_Some (f p.1 p.2)) (prod_map S id <$> imap pair l))
          = length (filter (λ p, is_Some ((f ∘ S) p.1 p.2)) (imap pair l))) as Hshift.
  { generalize (imap pair l). intros ps. induction ps as [|[i y] ps IHps]; [done|].
    rewrite fmap_cons, !filter_cons. simpl.
    destruct (decide (is_Some (f (S i) y))); simpl; by rewrite IHps. }
  destruct (f 0%nat x) as [y|] eqn:E.
  - rewrite decide_True by done. simpl. rewrite Hshift. f_equal. apply IH.
  - rewrite decide_False by (by intros [? ?]). rewrite Hshift. apply IH.
Qed.

Lemma findIndex_sameId_none record (l : list DataRecord) :
  JsArray.findIndex (sameId record) l = -1 ↔ rec_id record ∉ rec_id <$> l.
Proof.
  rewrite findIndex_none, Forall_forall, list_elem_of_fmap. unfold sameId.
  split.
  - intros Hl (r & Hr & Hin). by apply (Hl r).
  - intros Hn r Hin Hr. apply Hn. by exists r.
Qed.

Lemma find_sameId_none r (l : list DataRecord) :
  JsArray.find (sameId r) l = None ↔ rec_id r ∉ rec_id <$> l.
Proof.
  rewrite find_none, Forall_forall, list_elem_of_fmap. unfold sameId.
  split.
  - intros Hl (r' & Hr & Hin). by apply (Hl r').
  - intros Hn r' Hin Hr. apply Hn. by exists r'.
Qed.

Lemma elem_of_remainingRecords record records configRecords r :
  r ∈ remainingRecords record records configRecords ↔
  r ∈ records ∧ rec_id r ≠ rec_id record ∧
  rec_id r ∉ rec_id <$> configRecords.
Proof.
  unfold remainingRecords. rewrite list_elem_of_filter, find_sameId_none.
  naive_solver.
Qed.

Lemma remainingRecords_sublist record records configRecords :
  remainingRecords record records configRecords `sublist_of` records.
Proof. apply sublist_filter. Qed.

Lemma finalRecords_loaded v record column records trigger configRecords :
  hasSort v || hasFilter v = true →
  loadConfigRecords v column = Some configRecords →
  finalRecords v record column records trigger
  = (reconcile v record records trigger configRecords, true).
Proof. unfold finalRecords. by intros -> ->. Qed.

(** C4, as stated, fails: with a sync field, no sort, no filter and no record
    list in the config, adding [B] below an [A] whose stored position is 5
    renumbers both records. *)
Lemma cheap_path_counterexample :
  let a5 := Sample.noteAt "A" "order" 5 in
  let v := Sample.board false false [a5; Sample.B]
             (Some (mkConfig (Some "order") None ∅)) in
  let out := handleRecordUpdate v None Sample.B "Todo" [a5; Sample.B]
               addToColumn in
  orderSyncFieldName v = Some "order" ∧
  addToColumn ≠ removeFromColumn ∧
  (finalRecords v Sample.B "Todo" [a5; Sample.B] addToColumn).2 = false ∧
  hasSort v = false ∧
  updatedRecords out.2
  = [Sample.noteAt "A" "order" 0; Sample.noteAt "B" "order" 1] ∧
  ¬ ∃ r, updatedRecords out.2 = [r].
Proof.
  assert (∀ a b : DataRecord, ¬ ∃ r, [a; b] = [r]) as Htwo
    by (intros a b [r Hr]; discriminate).
  vm_compute. split_and!; try done. apply Htwo.
Qed.

(** C4, amended.  When the trigger is not [removeFromColumn], a sort is
    active and the records of the config were not loaded, the handler calls
    [api.updateRecord] once, for the mutated record as it was handed in
    (with the key of the column on [addToColumn]), whether or not an
    order-sync field is configured. *)
Theorem single_update_under_sort_without_config
    v g record column records trigger :
  trigger ≠ removeFromColumn →
  hasSort v = true →
  (finalRecords v (stampGroupBy g column trigger record)
     column records trigger).2 = false →
  updatedRecords (handleRecordUpdate v g record column records trigger).2
  = [stampGroupBy g column trigger record].
Proof.
  intros Htrigger Hsort Hloaded.
  rewrite handleRecordUpdate_updates. cbv zeta.
  rewrite bool_decide_true by done.
  unfold recordsToUpdate. rewrite Hloaded, Hsort. simpl.
  by destruct (orderSyncFieldName v).
Qed.

Lemma single_update_under_sort_without_config_witness :
  let v := Sample.board true false [Sample.A; Sample.B]
             (Some (mkConfig (Some "order") None ∅)) in
  updatedRecords
    (handleRecordUpdate v None Sample.B "Todo" [Sample.A; Sample.B]
       addToColumn).2
  = [Sample.B].
Proof.
  intros v.
  apply (single_update_under_sort_without_config v None Sample.B "Todo"
           [Sample.A; Sample.B] addToColumn); [done|reflexivity|reflexivity].
Defined.

Lemma recordsToUpdate_renumber v record records loaded name :
  orderSyncFieldName v = Some name →
  loaded = true ∨ hasSort v = false →
  recordsToUpdate v record records loaded
  = omap id (imap (syncUpdate record name) records).
Proof.
  intros Hname Hbranch. unfold recordsToUpdate. rewrite Hname.
  by destruct Hbranch as [-> | ->]; [|destruct loaded].
Qed.

Lemma syncUpdate_Some record name i r u :
  syncUpdate record name i r = Some u ↔
  (rec_id r = rec_id record ∧
   u = updateRecordValues record {[name := VNumber (Z.of_nat i)]}) ∨
  (rec_id r ≠ rec_id record ∧
   rec_values r !! name ≠ Some (VNumber (Z.of_nat i)) ∧
   u = updateRecordValues r {[name := VNumber (Z.of_nat i)]}).
Proof.
  unfold syncUpdate, differsFromIndex.
  destruct (decide (rec_id r = rec_id record)) as [Heq|Hne]; simpl.
  - split; [intros [= <-]; by left|]. intros [[_ ->]|[? _]]; done.
  - case_bool_decide as Hd; simpl.
    + split; [intros [= <-]; by right|]. intros [[? _]|(_ & _ & ->)]; done.
    + split; [done|]. intros [[? _]|(_ & ? & _)]; done.
Qed.

Lemma syncUpdate_is_Some record name i r :
  is_Some (syncUpdate record name i r) ↔
  rec_id r = rec_id record ∨
  rec_values r !! name ≠ Some (VNumber (Z.of_nat i)).
Proof.
  unfold is_Some. setoid_rewrite syncUpdate_Some.
  destruct (decide (rec_id r = rec_id record)); naive_solver.
Qed.

Lemma updateRecordValues_sync_lookup r name (n : Z) :
  rec_values (updateRecordValues r {[name := VNumber n]}) !! name
  = Some (VNumber n).
Proof.
  simpl. apply lookup_union_Some_l. by rewrite lookup_singleton_eq.
Qed.

Lemma omap_imap_lookup_increasing {A B} (f : nat → A → option B)
    (l : list A) (j1 j2 : nat) (y1 y2 : B) :
  (j1 < j2)%nat →
  omap id (imap f l) !! j1 = Some y1 →
  omap id (imap f l) !! j2 = Some y2 →
  ∃ i1 i2 x1 x2,
    (i1 < i2)%nat ∧ l !! i1 = Some x1 ∧ l !! i2 = Some x2 ∧
    f i1 x1 = Some y1 ∧ f i2 x2 = Some y2.
Proof.
  revert f j1 j2. induction l as [|x l IH]; intros f j1 j2 Hlt H1 H2;
    [done|].
  assert (∀ j y, omap id (imap (f ∘ S) l) !! j = Some y →
            ∃ i x', l !! i = Some x' ∧ f (S i) x' = Some y) as Hrest.
  { intros j y Hj. apply list_elem_of_lookup_2 in Hj.
    by apply elem_of_omap_imap in Hj. }
  assert (∀ j1 j2, (j1 < j2)%nat →
            omap id (imap (f ∘ S) l) !! j1 = Some y1 →
            omap id (imap (f ∘ S) l) !! j2 = Some y2 →
            ∃ i1 i2 x1 x2,
              (i1 < i2)%nat ∧ (x :: l) !! i1 = Some x1 ∧
              (x :: l) !! i2 = Some x2 ∧
              f i1 x1 = Some y1 ∧ f i2 x2 = Some y2) as Hshift.
  { intros k1 k2 Hk Hk1 Hk2.
    destruct (IH (f ∘ S) k1 k2 Hk Hk1 Hk2)
      as (i1 & i2 & x1 & x2 & Hi & Hx1 & Hx2 & Hf1 & Hf2).
    exists (S i1), (S i2), x1, x2. split_and!; [lia|done..]. }
  change (omap id (imap f (x :: l)))
    with (from_option (λ y, y :: omap id (imap (f ∘ S) l))
            (omap id (imap (f ∘ S) l)) (f 0%nat x)) in H1, H2.
  destruct (f 0%nat x) as [y|] eqn:Hfx; simpl in H1, H2;
    [|by apply (Hshift j1 j2)].
  destruct j1 as [|j1], j2 as [|j2]; try lia; simpl in H1, H2.
  - injection H1 as ->.
    destruct (Hrest j2 y2 H2) as (i2 & x2 & Hx2 & Hf2).
    exists 0%nat, (S i2), x, x2. split_and!; [lia|done..].
  - apply (Hshift j1 j2); [lia|done..].
Qed.

Lemma added_record_in_final_order v record column records :
  rec_id record ∈ rec_id <$> records ∨
  (finalRecords v record column records addToColumn).2 = true →
  rec_id record
  ∈ rec_id <$> (finalRecords v record column records addToColumn).1.
Proof.
  unfold finalRecords.
  destruct (hasSort v || hasFilter v) eqn:Hactive; simpl;
    [|by intros [?|?]].
  destruct (loadConfigRecords v column) as [configRecords|]; simpl;
    [|by intros [?|?]].
  intros _. unfold reconcile, placeRecord. cbv zeta.
  rewrite fmap_app, elem_of_app. left.
  rewrite bool_decide_true by done. simpl.
  destruct (hasSort v); simpl in *.
  - rewrite andb_false_r.
    destruct (Z.eqb_spec (JsArray.findIndex (sameId record) configRecords)
                (-1)) as [Hnone|Hsome]; simpl.
    + rewrite fmap_app, elem_of_app. right. simpl. left.
    + destruct (decide (rec_id record ∈ rec_id <$> configRecords))
        as [Hin|Hnotin]; [done|].
      by apply findIndex_sameId_none in Hnotin.
  - rewrite Hactive, andb_true_r.
    match goal with
    | |- _ ∈ rec_id <$> JsArray.splice ?l ?p 0 [record] =>
        unfold JsArray.splice;
        rewrite !fmap_app, !elem_of_app; right; left; simpl; left
    end.
Qed.

(** C3.  With an order-sync field, a trigger other than [removeFromColumn],
    and config records loaded or no sort active, the updates handed to
    [api.updateRecord] are, for the mutated record in the column's final
    order (where an added record always is, when the list of the column
    shows it or the config records are loaded):
    - an update of every record other than the mutated one whose stored
      value is not its position;
    - an update of the mutated record, whatever its stored value;
    - no other update: every update belongs to a position of the final
      order, at which the record is the mutated one or stores another
      value, and there is one update per such position;
    - every update writes the position into the sync field, and the updates
      are made in the order of the positions. *)
Theorem sync_field_renumbering v g record column records trigger name :
  orderSyncFieldName v = Some name →
  trigger ≠ removeFromColumn →
  let record' := stampGroupBy g column trigger record in
  let final := finalRecords v record' column records trigger in
  final.2 = true ∨ hasSort v = false →
  rec_id record ∈ rec_id <$> final.1 →
  let ups :=
    updatedRecords
      (handleRecordUpdate v g record column records trigger).2 in
  let at_position (i : nat) : gmap string DataValue :=
    {[name := VNumber (Z.of_nat i)]} in
  (∀ i r, final.1 !! i = Some r → rec_id r ≠ rec_id record →
     rec_values r !! name ≠ Some (VNumber (Z.of_nat i)) →
     updateRecordValues r (at_position i) ∈ ups) ∧
  (∀ i r, final.1 !! i = Some r → rec_id r = rec_id record →
     updateRecordValues record' (at_position i) ∈ ups) ∧
  (∃ i r, final.1 !! i = Some r ∧ rec_id r = rec_id record ∧
     updateRecordValues record' (at_position i) ∈ ups) ∧
  (∀ u, u ∈ ups →
     ∃ i r, final.1 !! i = Some r ∧ rec_id u = rec_id r ∧
       rec_values u !! name = Some (VNumber (Z.of_nat i)) ∧
       (rec_id r = rec_id record ∨
        rec_values r !! name ≠ Some (VNumber (Z.of_nat i)))) ∧
  length ups
  = length
      (filter (λ p, rec_id p.2 = rec_id record ∨
                    rec_values p.2 !! name ≠ Some (VNumber (Z.of_nat p.1)))
         (imap pair final.1)) ∧
  (∀ j1 j2 u1 u2 (p1 p2 : Z),
     (j1 < j2)%nat → ups !! j1 = Some u1 → ups !! j2 = Some u2 →
     rec_values u1 !! name = Some (VNumber p1) →
     rec_values u2 !! name = Some (VNumber p2) →
     p1 < p2).
Proof.
  intros Hname Htrigger record' final Hbranch Hpresent ups at_position.
  assert (Hid : rec_id record' = rec_id record) by apply stampGroupBy_id.
  assert (ups = omap id (imap (syncUpdate record' name) final.1)) as Hups.
  { subst ups. rewrite handleRecordUpdate_updates. cbv zeta.
    rewrite bool_decide_true by done.
    by apply recordsToUpdate_renumber. }
  assert (Hwritten : ∀ i r u, syncUpdate record' name i r = Some u →
            rec_id u = rec_id r ∧
            rec_values u !! name = Some (VNumber (Z.of_nat i)) ∧
            (rec_id r = rec_id record ∨
             rec_values r !! name ≠ Some (VNumber (Z.of_nat i)))).
  { intros i r u Hu.
    apply syncUpdate_Some in Hu as [[Heq ->]|(Hne & Hdiff & ->)].
    - rewrite updateRecordValues_sync_lookup. simpl.
      split_and!; [congruence|done|left; congruence].
    - rewrite updateRecordValues_sync_lookup. simpl. by split_and!; [| |right]. }
  assert (Hmutated : ∀ i r, final.1 !! i = Some r →
            rec_id r = rec_id record →
            updateRecordValues record' (at_position i) ∈ ups).
  { intros i r Hr Heq. rewrite Hups, elem_of_omap_imap.
    exists i, r. split; [done|]. apply syncUpdate_Some. left.
    split; [congruence|done]. }
  split_and!.
  - intros i r Hr Hne Hdiff. rewrite Hups, elem_of_omap_imap.
    exists i, r. split; [done|]. apply syncUpdate_Some. right.
    split_and!; [congruence|done|done].
  - done.
  - apply list_elem_of_fmap in Hpresent as (r & Heq & Hr).
    apply list_elem_of_lookup in Hr as [i Hi].
    exists i, r. split_and!; [done|done|by apply (Hmutated i r)].
  - intros u. rewrite Hups, elem_of_omap_imap.
    intros (i & r & Hr & Hu). exists i, r. split; [done|].
    by apply Hwritten.
  - rewrite Hups, length_omap_imap. f_equal. apply list_filter_iff.
    intros [i r]. simpl. rewrite syncUpdate_is_Some. by rewrite Hid.
  - intros j1 j2 u1 u2 p1 p2 Hlt Hu1 Hu2 Hp1 Hp2. rewrite Hups in Hu1, Hu2.
    destruct (omap_imap_lookup_increasing _ _ j1 j2 u1 u2 Hlt Hu1 Hu2)
      as (i1 & i2 & r1 & r2 & Hi & _ & _ & Hf1 & Hf2).
    apply Hwritten in Hf1 as (_ & Hw1 & _).
    apply Hwritten in Hf2 as (_ & Hw2 & _).
    rewrite Hw1 in Hp1. rewrite Hw2 in Hp2.
    injection Hp1 as <-. injection Hp2 as <-. lia.
Qed.

Lemma sync_field_renumbering_witness :
  let v := Sample.board false true [Sample.A; Sample.B; Sample.C]
             (Some (Sample.persistedSynced "Done" ["A"; "C"])) in
  let records := [Sample.A; Sample.B; Sample.C] in
  orderSyncFieldName v = Some "order" ∧
  (finalRecords v Sample.B "Done" records addToColumn).2 = true ∧
  rec_id Sample.B
  ∈ rec_id <$> (finalRecords v Sample.B "Done" records addToColumn).1 ∧
  Sample.noteAt "B" "order" 1
  ∈ updatedRecords
      (handleRecordUpdate v None Sample.B "Done" records addToColumn).2.
Proof.
  intros v records. split; [reflexivity|]. split; [reflexivity|].
  assert (addToColumn ≠ removeFromColumn) as Htrigger by discriminate.
  assert (rec_id Sample.B
          ∈ rec_id <$> (finalRecords v Sample.B "Done" records
                          addToColumn).1) as Hpresent
    by (apply added_record_in_final_order; by right).
  split; [done|].
  pose proof (sync_field_renumbering v None Sample.B "Done" records
                addToColumn "order" eq_refl Htrigger (or_introl eq_refl)
                Hpresent)
    as (_ & Hmutated & _).
  apply (Hmutated 1%nat Sample.B); reflexivity.
Defined.

(** ** Placing the mutated record *)

Lemma placeRecord_add_sort v record records configRecords :
  hasSort v = true →
  placeRecord v record records addToColumn configRecords
  = if decide (rec_id record ∈ rec_id <$> configRecords)
    then configRecords else configRecords ++ [record].
Proof.
  intros Hsort. unfold placeRecord. rewrite Hsort. simpl.
  rewrite andb_false_r.
  destruct (decide (rec_id record ∈ rec_id <$> configRecords)) as [Hin|Hnotin].
  - destruct (Z.eqb_spec (JsArray.findIndex (sameId record) configRecords) (-1))
      as [Hnone|_]; [|done].
    by apply findIndex_sameId_none in Hnone.
  - apply findIndex_sameId_none in Hnotin. by rewrite Hnotin.
Qed.

(** C5.  When a record is added while a sort is active and the column's
    list in the config resolves to [configRecords]: the record is appended
    to [configRecords] if its id is not there and [configRecords] is left as
    it is otherwise.  The list that is persisted starts with the ids of
    [configRecords] in their order, followed by the appended record if any
    and by the records of the column as shown that were not in the config. *)
Theorem add_under_sort_appends_or_keeps
    v g record column records configRecords :
  hasSort v = true →
  loadConfigRecords v column = Some configRecords →
  let record' := stampGroupBy g column addToColumn record in
  let placed :=
    if decide (rec_id record ∈ rec_id <$> configRecords)
    then configRecords else configRecords ++ [record'] in
  placeRecord v record' records addToColumn configRecords = placed ∧
  ∃ drift,
    persistedIds
      (savedConfig
         (handleRecordUpdate v g record column records addToColumn)) column
    = Some (rec_id <$> placed ++ drift) ∧
    drift `sublist_of` records ∧
    ∀ r, r ∈ drift →
      rec_id r ≠ rec_id record ∧ rec_id r ∉ rec_id <$> configRecords.
Proof.
  intros Hsort Hload record' placed.
  assert (Hid : rec_id record' = rec_id record) by apply stampGroupBy_id.
  assert (placeRecord v record' records addToColumn configRecords = placed)
    as Hplaced.
  { rewrite placeRecord_add_sort by done. subst placed. by rewrite Hid. }
  split; [done|].
  exists (remainingRecords record' records placed). split_and!.
  - rewrite handleRecordUpdate_persisted. fold record'.
    rewrite (finalRecords_loaded _ _ _ _ _ configRecords);
      [|by rewrite Hsort|done].
    unfold reconcile. cbv zeta. by rewrite Hplaced.
  - apply remainingRecords_sublist.
  - intros r (_ & Hne & Hnotin)%elem_of_remainingRecords.
    split; [congruence|]. intros Hin. apply Hnotin. subst placed.
    destruct (decide _); [done|]. rewrite fmap_app. set_solver.
Qed.

Lemma add_under_sort_appends_or_keeps_witness :
  let v := Sample.board true false [Sample.A; Sample.B; Sample.C]
             (Some (Sample.persisted "Doing" ["A"; "B"])) in
  hasSort v = true ∧
  loadConfigRecords v "Doing" = Some [Sample.A; Sample.B] ∧
  placeRecord v Sample.C [Sample.C; Sample.A; Sample.B] addToColumn
    [Sample.A; Sample.B]
  = [Sample.A; Sample.B; Sample.C].
Proof.
  intros v. split; [reflexivity|]. split; [reflexivity|].
  apply (add_under_sort_appends_or_keeps v None Sample.C "Doing"
           [Sample.C; Sample.A; Sample.B] [Sample.A; Sample.B]);
    reflexivity.
Defined.

Lemma indexOfId_findIndex record (l : list DataRecord) :
  JsArray.findIndex (sameId record) l
  = from_option Z.of_nat (-1) (indexOfId (rec_id record) l).
Proof.
  unfold JsArray.findIndex, indexOfId, sameId.
  by destruct (list_find _ l) as [[i x]|].
Qed.

Lemma indexOfId_None i (l : list DataRecord) :
  indexOfId i l = None ↔ i ∉ rec_id <$> l.
Proof.
  unfold indexOfId. rewrite fmap_None, list_find_None, Forall_forall.
  rewrite list_elem_of_fmap. split.
  - intros Hl (r & Hr & Hin). by apply (Hl r).
  - intros Hn r Hin Hr. apply Hn. by exists r.
Qed.

Lemma indexOfId_Some i (l : list DataRecord) k :
  indexOfId i l = Some k ↔
  ∃ r, l !! k = Some r ∧ rec_id r = i ∧
       ∀ j y, l !! j = Some y → (j < k)%nat → rec_id y ≠ i.
Proof.
  unfold indexOfId. rewrite fmap_Some. split.
  - intros ([k' r] & Hfind & ->). apply list_find_Some in Hfind. by exists r.
  - intros (r & Hr & Hid & Hlt). exists (k, r). split; [|done].
    by apply list_find_Some.
Qed.

Lemma indexOfId_lt i (l : list DataRecord) k :
  indexOfId i l = Some k → (k < length l)%nat.
Proof. intros (r & Hr%lookup_lt_Some & _)%indexOfId_Some. done. Qed.

Lemma indexOfId_middle (pre post : list DataRecord) r :
  Forall (λ x, rec_id x ≠ rec_id r) pre →
  indexOfId (rec_id r) (pre ++ r :: post) = Some (length pre).
Proof.
  intros Hpre. apply indexOfId_Some. exists r. split_and!.
  - by rewrite lookup_app_r, Nat.sub_diag.
  - done.
  - intros j y Hj Hlt. rewrite lookup_app_l in Hj by done.
    rewrite Forall_forall in Hpre. apply Hpre.
    by eapply list_elem_of_lookup_2.
Qed.

Lemma get_of_nat {A} (l : list A) (n : nat) :
  JsArray.get l (Z.of_nat n) = l !! n.
Proof.
  unfold JsArray.get. rewrite decide_True by lia. by rewrite Nat2Z.id.
Qed.

Lemma get_before {A} (pre post : list A) x :
  JsArray.get (pre ++ x :: post) (Z.of_nat (length pre) - 1) = last pre.
Proof.
  destruct pre as [|y pre _] using rev_ind; [done|].
  rewrite length_app, last_snoc. simpl.
  replace (Z.of_nat (length pre + 1) - 1) with (Z.of_nat (length pre)) by lia.
  rewrite get_of_nat, <- app_assoc. simpl.
  by rewrite lookup_app_r, Nat.sub_diag.
Qed.

Lemma get_after {A} (pre post : list A) x :
  JsArray.get (pre ++ x :: post) (Z.of_nat (length pre) + 1) = head post.
Proof.
  replace (Z.of_nat (length pre) + 1) with (Z.of_nat (S (length pre))) by lia.
  rewrite get_of_nat, lookup_app_r by lia.
  replace (S (length pre) - length pre)%nat with 1%nat by lia.
  by destruct post.
Qed.

(** The splice position under a filter, for a record found in the column as
    shown between [pre] and [post]. *)
Lemma filterPosition_neighbours record pre r post configRecords :
  rec_id r = rec_id record →
  Forall (λ x, rec_id x ≠ rec_id record) pre →
  let resolved (o : option DataRecord) :=
    o ≫= λ x, indexOfId (rec_id x) configRecords in
  filterPosition record (pre ++ r :: post) configRecords
  = Z.of_nat
      match resolved (last pre) with
      | Some i => S i
      | None => default (length configRecords) (resolved (head post))
      end.
Proof.
  intros Hr Hpre resolved. unfold filterPosition.
  assert (JsArray.findIndex (sameId record) (pre ++ r :: post)
          = Z.of_nat (length pre)) as ->.
  { rewrite indexOfId_findIndex, <- Hr, indexOfId_middle; [done|].
    by rewrite Hr. }
  rewrite get_before, get_after. subst resolved. cbv beta.
  destruct (last pre) as [b|]; destruct (head post) as [a|]; simpl;
    rewrite ?indexOfId_findIndex;
    repeat match goal with
      | |- context [indexOfId ?i ?l] => destruct (indexOfId i l); simpl
      end;
    repeat match goal with
      | |- context [Z.of_nat ?n =? -1] =>
          rewrite (proj2 (Z.eqb_neq (Z.of_nat n) (-1))) by lia; simpl
      | |- context [Z.of_nat ?n + 1 =? -1] =>
          rewrite (proj2 (Z.eqb_neq (Z.of_nat n + 1) (-1))) by lia; simpl
      end; lia.
Qed.

(** The first splice of [placeRecord] removes the first record with the id
    of the mutated one. *)
Lemma strip_removeFirstId record (configRecords : list DataRecord) :
  let index := JsArray.findIndex (sameId record) configRecords in
  (if negb (index =? -1) then JsArray.splice configRecords index 1 []
   else configRecords)
  = removeFirstId (rec_id record) configRecords.
Proof.
  cbv zeta. rewrite indexOfId_findIndex. unfold removeFirstId.
  destruct (indexOfId (rec_id record) configRecords) as [k|]; simpl; [|done].
  rewrite (proj2 (Z.eqb_neq _ _)) by lia. simpl. apply splice_delete.
Qed.

Lemma removeFirstId_absent i (l : list DataRecord) :
  i ∉ rec_id <$> l → removeFirstId i l = l.
Proof. intros Hi%indexOfId_None. unfold removeFirstId. by rewrite Hi. Qed.

(** [placeRecord], trigger by trigger. *)
Lemma placeRecord_cases v record records trigger configRecords :
  placeRecord v record records trigger configRecords
  = let stripped := removeFirstId (rec_id record) configRecords in
    match trigger with
    | removeFromColumn => stripped
    | addToColumn =>
        if hasSort v then
          if decide (rec_id record ∈ rec_id <$> configRecords)
          then configRecords else configRecords ++ [record]
        else if hasFilter v then
          JsArray.splice stripped
            (filterPosition record records stripped) 0 [record]
        else stripped
    | reorderWithinColumn => if hasSort v then configRecords else stripped
    end.
Proof.
  destruct (hasSort v) eqn:Hsort.
  - destruct trigger; cbv zeta.
    + by apply placeRecord_add_sort.
    + unfold placeRecord. rewrite Hsort. simpl. rewrite ?andb_true_r.
      apply strip_removeFirstId.
    + unfold placeRecord. rewrite Hsort. simpl. by rewrite andb_false_r.
  - pose proof (strip_removeFirstId record configRecords) as Hstrip.
    cbv zeta in Hstrip.
    unfold placeRecord. rewrite Hsort. simpl.
    rewrite ?orb_true_r, ?andb_true_r, Hstrip.
    by destruct trigger.
Qed.

Lemma filterPosition_range record records (configRecords : list DataRecord) :
  0 ≤ filterPosition record records configRecords
    ≤ Z.of_nat (length configRecords).
Proof.
  unfold filterPosition.
  repeat match goal with
    | |- context [JsArray.get ?l ?i] => destruct (JsArray.get l i); simpl
    | |- context [JsArray.findIndex (sameId ?x) configRecords] =>
        let Hx := fresh "Hx" in
        destruct (findIndex_range (sameId x) configRecords) as [Hx|Hx];
        [rewrite Hx; simpl|];
        generalize dependent (JsArray.findIndex (sameId x) configRecords);
        intros
    end;
  repeat match goal with
    | |- context [?x =? ?y] => destruct (Z.eqb_spec x y); simpl
    end; lia.
Qed.

Lemma splice_filterPosition record records (configRecords : list DataRecord) :
  JsArray.splice configRecords
    (filterPosition record records configRecords) 0 [record]
  = insertAt (Z.to_nat (filterPosition record records configRecords))
      record configRecords.
Proof.
  pose proof (filterPosition_range record records configRecords) as Hrange.
  unfold insertAt. rewrite <- (splice_insert configRecords) by lia.
  by rewrite Z2Nat.id by lia.
Qed.

(** C1, as stated, fails when the mutated record is already in the column's
    list: the neighbours are resolved after the record has been taken out of
    [configRecords].  With [A, B, C] persisted and [A] dropped after [B], the
    previous neighbour [B] resolves to index 1 in [configRecords], yet [A]
    is persisted at index 1, not 2. *)
Lemma add_under_filter_counterexample :
  let v := Sample.board false true [Sample.A; Sample.B; Sample.C]
             (Some (Sample.persisted "Done" ["A"; "B"; "C"])) in
  let records := [Sample.B; Sample.A; Sample.C] in
  let out := handleRecordUpdate v None Sample.A "Done" records addToColumn in
  loadConfigRecords v "Done" = Some [Sample.A; Sample.B; Sample.C] ∧
  indexOfId "B" [Sample.A; Sample.B; Sample.C] = Some 1%nat ∧
  persistedIds (savedConfig out) "Done" = Some ["B"; "A"; "C"] ∧
  persistedIds (savedConfig out) "Done"
  ≠ Some (rec_id <$> insertAt 2 Sample.A [Sample.A; Sample.B; Sample.C]) ∧
  ["B"; "A"; "C"] !! 2%nat ≠ Some "A".
Proof. vm_compute. by split_and!. Qed.

(** C1, amended.  When a record is added while a filter and no sort is
    active, and the column's list in the config resolves to [configRecords],
    the record is placed in [stripped], that is [configRecords] without the
    record itself.  With the record found in the column as shown between
    [pre] and [post]: if its previous neighbour resolves to index [i] in
    [stripped] the record is inserted at index [i + 1]; otherwise, if its
    next neighbour resolves to index [j], at index [j]; otherwise it is
    appended.  The persisted list is the result, followed by the records of
    the column as shown that are not in it. *)
Theorem add_under_filter_anchors_to_neighbours
    v g record column configRecords pre r post :
  hasSort v = false →
  hasFilter v = true →
  loadConfigRecords v column = Some configRecords →
  rec_id r = rec_id record →
  Forall (λ x, rec_id x ≠ rec_id record) pre →
  let records := pre ++ r :: post in
  let record' := stampGroupBy g column addToColumn record in
  let stripped := removeFirstId (rec_id record) configRecords in
  let resolved (o : option DataRecord) :=
    o ≫= λ x, indexOfId (rec_id x) stripped in
  ∃ placed drift,
    persistedIds
      (savedConfig
         (handleRecordUpdate v g record column records addToColumn)) column
    = Some (rec_id <$> placed ++ drift) ∧
    (∀ i, resolved (last pre) = Some i →
       placed = insertAt (S i) record' stripped) ∧
    (∀ j, resolved (last pre) = None → resolved (head post) = Some j →
       placed = insertAt j record' stripped) ∧
    (resolved (last pre) = None → resolved (head post) = None →
       placed = stripped ++ [record']) ∧
    drift `sublist_of` records ∧
    ∀ x, x ∈ drift ↔
      x ∈ records ∧ rec_id x ≠ rec_id record ∧
      rec_id x ∉ rec_id <$> stripped.
Proof.
  intros Hsort Hfilter Hload Hr Hpre records record' stripped resolved.
  assert (Hid : rec_id record' = rec_id record) by apply stampGroupBy_id.
  set (placed := placeRecord v record' records addToColumn configRecords).
  assert (placed
          = insertAt
              match resolved (last pre) with
              | Some i => S i
              | None => default (length stripped) (resolved (head post))
              end record' stripped) as Hplaced.
  { subst placed. rewrite placeRecord_cases. cbv zeta.
    rewrite Hsort, Hfilter, Hid. fold stripped.
    rewrite splice_filterPosition. subst records.
    rewrite filterPosition_neighbours by (by rewrite Hid).
    by rewrite Nat2Z.id. }
  exists placed, (remainingRecords record' records placed). split_and!.
  - rewrite handleRecordUpdate_persisted. fold record'.
    rewrite (finalRecords_loaded _ _ _ _ _ configRecords);
      [done|by rewrite Hfilter, orb_true_r|done].
  - intros i Hi. by rewrite Hplaced, Hi.
  - intros j Hnone Hj. by rewrite Hplaced, Hnone, Hj.
  - intros Hnone Hnone'. rewrite Hplaced, Hnone, Hnone'. simpl.
    unfold insertAt. by rewrite take_ge, drop_ge by lia.
  - apply remainingRecords_sublist.
  - intros x. rewrite elem_of_remainingRecords, Hid.
    assert (rec_id <$> placed ≡ₚ rec_id record :: (rec_id <$> stripped))
      as Hperm.
    { rewrite Hplaced. unfold insertAt. rewrite fmap_app, fmap_cons, Hid.
      rewrite <- Permutation_middle, <- fmap_app. by rewrite take_drop. }
    rewrite Hperm, not_elem_of_cons. naive_solver.
Qed.

Lemma add_under_filter_anchors_to_neighbours_witness :
  let v := Sample.board false true [Sample.A; Sample.B; Sample.C]
             (Some (Sample.persisted "Done" ["A"; "C"])) in
  loadConfigRecords v "Done" = Some [Sample.A; Sample.C] ∧
  persistedIds
    (savedConfig
       (handleRecordUpdate v None Sample.B "Done"
          [Sample.A; Sample.B; Sample.C] addToColumn)) "Done"
  = Some ["A"; "B"; "C"].
Proof.
  intros v. split; [reflexivity|].
  destruct (add_under_filter_anchors_to_neighbours v None Sample.B "Done"
              [Sample.A; Sample.C] [Sample.A] Sample.B [Sample.C]
              eq_refl eq_refl eq_refl eq_refl)
    as (placed & drift & Hpersisted & Hprev & _ & _ & _ & Hdrift).
  { repeat constructor. discriminate. }
  etrans; [exact Hpersisted|]. rewrite (Hprev 0%nat eq_refl).
  assert (drift = []) as ->; [|reflexivity].
  destruct drift as [|x drift]; [done|]. exfalso.
  destruct (proj1 (Hdrift x)) as (Hin & Hne & Hnotin); [left|].
  simpl in Hin.
  apply elem_of_cons in Hin as [->|Hin];
    [apply Hnotin; vm_compute; apply list_elem_of_here|].
  apply elem_of_cons in Hin as [->|Hin]; [by apply Hne|].
  apply elem_of_cons in Hin as [->|Hin];
    [apply Hnotin; vm_compute; apply list_elem_of_further, list_elem_of_here|].
  by apply elem_of_nil in Hin.
Defined.

(** ** Absent parts of the config *)

(** The handler reads the config through the sync field, the properties it
    copies, the other columns and three parts of the column's entry. *)
Lemma handleRecordUpdate_config_ext v cfg1 cfg2 g record column records trigger :
  cfg1 ≫= cfg_orderSyncField = cfg2 ≫= cfg_orderSyncField →
  from_option cfg_rest ∅ cfg1 = from_option cfg_rest ∅ cfg2 →
  (∀ k, k ≠ column → spreadColumns cfg1 !! k = spreadColumns cfg2 !! k) →
  configColumn (setConfig v cfg1) column ≫= col_weight
  = configColumn (setConfig v cfg2) column ≫= col_weight →
  configColumn (setConfig v cfg1) column ≫= col_records
  = configColumn (setConfig v cfg2) column ≫= col_records →
  from_option col_rest ∅ (configColumn (setConfig v cfg1) column)
  = from_option col_rest ∅ (configColumn (setConfig v cfg2) column) →
  handleRecordUpdate (setConfig v cfg1) g record column records trigger
  = handleRecordUpdate (setConfig v cfg2) g record column records trigger.
Proof.
  intros Hsync Hrest Hothers Hweight Hrecords Hcolrest.
  assert (orderSyncFieldName (setConfig v cfg1)
          = orderSyncFieldName (setConfig v cfg2)) as Hname.
  { assert (∀ cfg, orderSyncFieldName (setConfig v cfg)
              = (cfg ≫= cfg_orderSyncField) ≫= λ name,
                (if truthy name then getFieldByName (fields v) name else None)
                ≫= λ f, if truthy (field_name f) then Some (field_name f)
                        else None) as Hread.
    { intros [c|]; [|done]. unfold orderSyncFieldName, orderSyncField.
      simpl. by destruct (cfg_orderSyncField c). }
    by rewrite !Hread, Hsync. }
  assert (loadConfigRecords (setConfig v cfg1) column
          = loadConfigRecords (setConfig v cfg2) column) as Hload.
  { assert (∀ cfg, loadConfigRecords (setConfig v cfg) column
              = (configColumn (setConfig v cfg) column ≫= col_records)
                ≫= λ ids, Some (mapDefined (getRecord v) ids)) as Hread.
    { intros cfg. unfold loadConfigRecords.
      by destruct (configColumn (setConfig v cfg) column). }
    by rewrite !Hread, Hrecords. }
  assert (∀ rec, finalRecords (setConfig v cfg1) rec column records trigger
                 = finalRecords (setConfig v cfg2) rec column records trigger)
    as Hfinal.
  { intros rec. unfold finalRecords. by rewrite Hload. }
  assert (∀ recs, recordsConfig (setConfig v cfg1) column recs
                  = recordsConfig (setConfig v cfg2) column recs) as Hcfg.
  { intros recs. unfold recordsConfig, withColumns, withRecords. simpl.
    rewrite Hsync, Hrest, Hweight, Hcolrest. do 2 f_equal.
    apply map_eq. intros k. destruct (decide (k = column)) as [->|Hk].
    - by rewrite !lookup_insert_eq.
    - rewrite !lookup_insert_ne by done. by apply Hothers. }
  unfold handleRecordUpdate. rewrite Hfinal.
  destruct (finalRecords _ _ _ _ _) as [recs loaded].
  unfold saveConfig, recordsToUpdate. simpl. by rewrite Hcfg, Hname.
Qed.

Lemma setConfig_config v : setConfig v (config v) = v.
Proof. by destruct v. Qed.

(** C8, as stated, fails for the record list: an entry without [records]
    and an entry with an empty [records] are told apart when a sort (or a
    filter) is active.  Adding [B] to a column shown as [A, B] persists
    [A, B] in the first case and [B, A] in the second. *)
Lemma absent_records_counterexample :
  let without := mkConfig None (Some {["Todo" := mkColumn (Some 0) None ∅]}) ∅ in
  let empty :=
    mkConfig None (Some {["Todo" := mkColumn (Some 0) (Some []) ∅]}) ∅ in
  let run cfg :=
    handleRecordUpdate
      (Sample.board true false [Sample.A; Sample.B] (Some cfg))
      None Sample.B "Todo" [Sample.A; Sample.B] addToColumn in
  persistedIds (savedConfig (run without)) "Todo" = Some ["A"; "B"] ∧
  persistedIds (savedConfig (run empty)) "Todo" = Some ["B"; "A"] ∧
  run without ≠ run empty.
Proof.
  vm_compute. split_and!; [done|done|]. intros Heq.
  apply (f_equal snd) in Heq. simpl in Heq. discriminate.
Qed.

(** C8, amended.  The handler is a total function, and an absent config, an
    absent [columns] and an absent entry for the column are each handled as
    the empty object in their place: the view afterwards and the effects are
    the same.  An absent record list is handled on a path of its own: the
    list of the column as shown is persisted as it is, and no config
    records count as loaded. *)
Theorem absent_config_parts_default_to_empty
    v g record column records trigger :
  (config v = None →
   handleRecordUpdate (setConfig v (Some emptyConfig))
     g record column records trigger
   = handleRecordUpdate v g record column records trigger) ∧
  (∀ c, config v = Some c → cfg_columns c = None →
   handleRecordUpdate (setConfig v (Some (setColumns c ∅)))
     g record column records trigger
   = handleRecordUpdate v g record column records trigger) ∧
  (∀ c cols, config v = Some c → cfg_columns c = Some cols →
   cols !! column = None →
   handleRecordUpdate
     (setConfig v (Some (setColumns c (<[column := emptyColumn]> cols))))
     g record column records trigger
   = handleRecordUpdate v g record column records trigger) ∧
  (persistedIds (config v) column = None →
   finalRecords v (stampGroupBy g column trigger record)
     column records trigger
   = (records, false) ∧
   persistedIds
     (savedConfig (handleRecordUpdate v g record column records trigger))
     column
   = Some (rec_id <$> records)).
Proof.
  split_and!.
  - intros Hnone. rewrite <- (setConfig_config v) at 2. rewrite Hnone.
    by apply handleRecordUpdate_config_ext.
  - intros c Hc Hcols. rewrite <- (setConfig_config v) at 2. rewrite Hc.
    apply handleRecordUpdate_config_ext; try done;
      unfold configColumn, spreadColumns; simpl; by rewrite Hcols.
  - intros c cols Hc Hcols Hcol. rewrite <- (setConfig_config v) at 2.
    rewrite Hc.
    apply handleRecordUpdate_config_ext; try done;
      unfold configColumn, spreadColumns; simpl; rewrite Hcols; simpl.
    + intros k Hk. by rewrite lookup_insert_ne.
    + by rewrite lookup_insert_eq, Hcol.
    + by rewrite lookup_insert_eq, Hcol.
    + by rewrite lookup_insert_eq, Hcol.
  - intros Hnone.
    assert (loadConfigRecords v column = None) as Hload.
    { unfold loadConfigRecords, configColumn.
      unfold persistedIds in Hnone.
      destruct (config v) as [c|]; simpl in *; [|done].
      destruct (cfg_columns c) as [cols|]; simpl in *; [|done].
      destruct (cols !! column) as [cs|]; simpl in *; [|done].
      by rewrite Hnone. }
    assert (finalRecords v (stampGroupBy g column trigger record)
              column records trigger = (records, false)) as Hfinal.
    { unfold finalRecords. rewrite Hload. by destruct (_ || _). }
    split; [done|]. by rewrite handleRecordUpdate_persisted, Hfinal.
Qed.

Lemma absent_config_parts_default_to_empty_witness :
  let v := Sample.board false false [Sample.A] None in
  config v = None ∧
  handleRecordUpdate (setConfig v (Some emptyConfig))
    None Sample.A "Todo" [Sample.A] addToColumn
  = handleRecordUpdate v None Sample.A "Todo" [Sample.A] addToColumn.
Proof.
  intros v. split; [reflexivity|].
  apply (proj1 (absent_config_parts_default_to_empty v None Sample.A "Todo"
                  [Sample.A] addToColumn)). reflexivity.
Defined.

(** ** The ids of the reconciled list *)

Lemma ids_sublist (l1 l2 : list DataRecord) :
  l1 `sublist_of` l2 → rec_id <$> l1 `sublist_of` rec_id <$> l2.
Proof. apply fmap_sublist. Qed.

Lemma ids_sublist_NoDup (l1 l2 : list DataRecord) :
  l1 `sublist_of` l2 → NoDup (rec_id <$> l2) → NoDup (rec_id <$> l1).
Proof. intros Hsub%ids_sublist Hnd. by eapply sublist_NoDup. Qed.

Lemma removeFirstId_sublist i (l : list DataRecord) :
  removeFirstId i l `sublist_of` l.
Proof.
  unfold removeFirstId. destruct (indexOfId i l) as [k|] eqn:Hk; [|done].
  apply indexOfId_Some in Hk as (r & Hr & _).
  rewrite <- (take_drop_middle l k r Hr) at 3.
  apply sublist_app; [done|]. by apply sublist_cons.
Qed.

Lemma removeFirstId_middle i (l : list DataRecord) k :
  indexOfId i l = Some k →
  ∃ r, rec_id r = i ∧ l = take k l ++ r :: drop (S k) l ∧
       removeFirstId i l = take k l ++ drop (S k) l.
Proof.
  intros Hk. unfold removeFirstId. rewrite Hk.
  apply indexOfId_Some in Hk as (r & Hr & Hid & _).
  exists r. by rewrite (take_drop_middle l k r Hr).
Qed.

Lemma removeFirstId_NoDup i (l : list DataRecord) :
  NoDup (rec_id <$> l) → i ∉ rec_id <$> removeFirstId i l.
Proof.
  intros Hnd. destruct (indexOfId i l) as [k|] eqn:Hk.
  - destruct (removeFirstId_middle i l k Hk) as (r & Hid & Hl & ->).
    rewrite Hl, fmap_app, fmap_cons in Hnd.
    apply NoDup_app in Hnd as (_ & Hdisj & Htail).
    apply NoDup_cons in Htail as [Htail _].
    rewrite fmap_app, elem_of_app. intros [Hin|Hin].
    + apply (Hdisj _ Hin). rewrite Hid. left.
    + by rewrite Hid in Htail.
  - rewrite removeFirstId_absent; by apply indexOfId_None.
Qed.

Lemma insertAt_perm {A} (n : nat) (x : A) (l : list A) :
  insertAt n x l ≡ₚ x :: l.
Proof.
  unfold insertAt. rewrite <- Permutation_middle. by rewrite take_drop.
Qed.

Lemma mapDefined_ids v (ids : list string) :
  resolvesById v →
  rec_id <$> mapDefined (getRecord v) ids
  = filter (λ i, is_Some (getRecord v i)) ids.
Proof.
  intros Hres. unfold mapDefined.
  induction ids as [|i ids IH]; [done|].
  rewrite filter_cons. simpl. destruct (getRecord v i) as [r|] eqn:Hr.
  - rewrite decide_True by done. simpl. f_equal; [by apply Hres|exact IH].
  - rewrite decide_False by (by intros [? ?]). exact IH.
Qed.

Lemma loadConfigRecords_persisted v column configRecords :
  loadConfigRecords v column = Some configRecords →
  ∃ ids, persistedIds (config v) column = Some ids ∧
         configRecords = mapDefined (getRecord v) ids.
Proof.
  unfold loadConfigRecords, configColumn, persistedIds.
  destruct (config v) as [c|]; simpl; [|done].
  destruct (cfg_columns c) as [cols|]; simpl; [|done].
  destruct (cols !! column) as [cs|]; simpl; [|done].
  destruct (col_records cs) as [ids|]; simpl; [|done].
  intros [= <-]. by exists ids.
Qed.

Lemma persisted_loadConfigRecords v column ids :
  persistedIds (config v) column = Some ids →
  loadConfigRecords v column = Some (mapDefined (getRecord v) ids).
Proof.
  unfold loadConfigRecords, configColumn, persistedIds.
  destruct (config v) as [c|]; simpl; [|done].
  destruct (cfg_columns c) as [cols|]; simpl; [|done].
  destruct (cols !! column) as [cs|]; simpl; [|done].
  by intros ->.
Qed.

(** The ids in the list after [placeRecord], trigger by trigger, when the
    ids of [configRecords] are distinct. *)
Lemma placeRecord_ids_perm v record records trigger configRecords :
  let ids := rec_id <$> configRecords in
  let others := rec_id <$> removeFirstId (rec_id record) configRecords in
  rec_id <$> placeRecord v record records trigger configRecords
  ≡ₚ match trigger with
     | removeFromColumn => others
     | addToColumn =>
         if hasSort v then
           if decide (rec_id record ∈ ids) then ids else rec_id record :: ids
         else if hasFilter v then rec_id record :: others
         else others
     | reorderWithinColumn => if hasSort v then ids else others
     end.
Proof.
  cbv zeta. rewrite placeRecord_cases. cbv zeta.
  destruct trigger; try done.
  - destruct (hasSort v).
    + destruct (decide _); [done|].
      by rewrite fmap_app, Permutation_app_comm.
    + destruct (hasFilter v); [|done].
      by rewrite splice_filterPosition, insertAt_perm.
  - by destruct (hasSort v).
Qed.

Lemma placeRecord_NoDup v record records trigger configRecords :
  NoDup (rec_id <$> configRecords) →
  NoDup (rec_id <$> placeRecord v record records trigger configRecords).
Proof.
  intros Hnd. rewrite placeRecord_ids_perm.
  assert (NoDup (rec_id <$> removeFirstId (rec_id record) configRecords))
    as Hstripped.
  { eapply ids_sublist_NoDup; [apply removeFirstId_sublist|done]. }
  pose proof (removeFirstId_NoDup (rec_id record) configRecords Hnd) as Hgone.
  destruct trigger, (hasSort v), (hasFilter v); try done;
    try (destruct (decide _); [done|]); by apply NoDup_cons.
Qed.

Lemma placeRecord_ids_subseteq v record records trigger configRecords i :
  i ∈ rec_id <$> placeRecord v record records trigger configRecords →
  i = rec_id record ∨ i ∈ rec_id <$> configRecords.
Proof.
  rewrite placeRecord_ids_perm.
  assert (i ∈ rec_id <$> removeFirstId (rec_id record) configRecords →
          i ∈ rec_id <$> configRecords) as Hsub.
  { apply sublist_subseteq, ids_sublist, removeFirstId_sublist. }
  destruct trigger, (hasSort v), (hasFilter v);
    try (destruct (decide _)); rewrite ?elem_of_cons; naive_solver.
Qed.

Lemma reconcile_NoDup v record records trigger configRecords :
  NoDup (rec_id <$> configRecords) →
  NoDup (rec_id <$> records) →
  NoDup (rec_id <$> reconcile v record records trigger configRecords).
Proof.
  intros Hcfg Hrecords. unfold reconcile. cbv zeta. rewrite fmap_app.
  apply NoDup_app. split_and!.
  - by apply placeRecord_NoDup.
  - intros i Hplaced (r & -> & Hr)%list_elem_of_fmap.
    by apply elem_of_remainingRecords in Hr as (_ & _ & Hnotin).
  - eapply ids_sublist_NoDup; [apply remainingRecords_sublist|done].
Qed.

Lemma sample_board_resolvesById sort filter frame cfg :
  resolvesById (Sample.board sort filter frame cfg).
Proof.
  intros i r Hr. unfold Sample.board, Sample.lookup, JsArray.find in Hr.
  simpl in Hr. apply fmap_Some in Hr as ([k x] & Hfind & ->).
  by apply list_find_Some in Hfind as (_ & Hid & _).
Qed.

(** C2, as stated, fails: the handler removes no duplicate that is already
    in its input.  With ["A", "A"] persisted, a sort active and [A] added,
    the id of the mutated record is in the persisted list and the list that
    is persisted is ["A", "A"] again. *)
Lemma no_duplicates_counterexample :
  let v := Sample.board true false [Sample.A]
             (Some (Sample.persisted "Doing" ["A"; "A"])) in
  let out := handleRecordUpdate v None Sample.A "Doing" [Sample.A]
               addToColumn in
  persistedIds (savedConfig out) "Doing" = Some ["A"; "A"] ∧
  ¬ NoDup ["A"; "A"].
Proof.
  split; [by vm_compute|]. intros Hnd.
  apply NoDup_cons in Hnd as [Hnotin _]. apply Hnotin. left.
Qed.

(** C2, amended.  When the ids of the column as shown are distinct, the ids
    of the column's list in the config (if there is one) are distinct, and
    [getRecord] is a lookup by id, the list of ids that is persisted for the
    column has no repeated id, for every trigger and every combination of
    sort and filter. *)
Theorem reconciled_ids_have_no_duplicates
    v g record column records trigger :
  resolvesById v →
  NoDup (rec_id <$> records) →
  (∀ ids, persistedIds (config v) column = Some ids → NoDup ids) →
  ∃ ids',
    persistedIds
      (savedConfig (handleRecordUpdate v g record column records trigger))
      column = Some ids' ∧
    NoDup ids'.
Proof.
  intros Hres Hrecords Hpersisted.
  eexists. split; [apply handleRecordUpdate_persisted|].
  unfold finalRecords.
  destruct (hasSort v || hasFilter v); [|done].
  destruct (loadConfigRecords v column) as [configRecords|] eqn:Hload; [|done].
  simpl. apply reconcile_NoDup; [|done].
  apply loadConfigRecords_persisted in Hload as (ids & Hids & ->).
  rewrite mapDefined_ids by done. apply NoDup_filter. by apply Hpersisted.
Qed.

Lemma reconciled_ids_have_no_duplicates_witness :
  let v := Sample.board true false [Sample.A; Sample.B; Sample.C]
             (Some (Sample.persisted "Doing" ["A"; "B"])) in
  ∃ ids',
    persistedIds
      (savedConfig
         (handleRecordUpdate v None Sample.A "Doing"
            [Sample.A; Sample.B; Sample.C] addToColumn)) "Doing"
    = Some ids' ∧
    NoDup ids'.
Proof.
  intros v.
  apply (reconciled_ids_have_no_duplicates v None Sample.A "Doing"
           [Sample.A; Sample.B; Sample.C] addToColumn).
  - apply sample_board_resolvesById.
  - by_evaluation.
  - intros ids [= <-]. by_evaluation.
Defined.

(** C7.  When a sort or a filter is active, an id of the column's list in
    the config for which [getRecord] returns no record is not in the list
    that is persisted, for every trigger.  [getRecord] is the lookup by id
    in the live frame, from which the records of the event (the mutated
    record and the column as shown) are taken: it returns records with the
    id asked for and resolves the records of the event.  The handler has no
    failing path: the list is persisted in every case. *)
Theorem unresolvable_ids_are_dropped
    v g record column records trigger ids u :
  resolvesById v →
  (∀ r, r ∈ record :: records → is_Some (getRecord v (rec_id r))) →
  hasSort v || hasFilter v = true →
  persistedIds (config v) column = Some ids →
  u ∈ ids →
  getRecord v u = None →
  ∃ ids',
    persistedIds
      (savedConfig (handleRecordUpdate v g record column records trigger))
      column = Some ids' ∧
    u ∉ ids'.
Proof.
  intros Hres Hlive Hactive Hids Hu Hnone.
  assert (∀ r, r ∈ record :: records → u ≠ rec_id r) as Hevent.
  { intros r Hr ->. destruct (Hlive r Hr) as [r' Hr']. congruence. }
  eexists. split; [apply handleRecordUpdate_persisted|].
  rewrite (finalRecords_loaded _ _ _ _ _ _ Hactive
             (persisted_loadConfigRecords _ _ _ Hids)).
  simpl. unfold reconcile. cbv zeta. rewrite fmap_app, elem_of_app.
  intros [Hplaced|Hremaining].
  - apply placeRecord_ids_subseteq in Hplaced as [Heq|Hin].
    + rewrite stampGroupBy_id in Heq. apply (Hevent record); [left|done].
    + rewrite mapDefined_ids in Hin by done.
      apply list_elem_of_filter in Hin as [[r Hr] _]. congruence.
  - apply list_elem_of_fmap in Hremaining as (r & Heq & Hr).
    apply elem_of_remainingRecords in Hr as (Hin & _).
    apply (Hevent r); [by right|done].
Qed.

Lemma unresolvable_ids_are_dropped_witness :
  let v := Sample.board true false [Sample.A; Sample.C]
             (Some (Sample.persisted "Done" ["A"; "B"])) in
  getRecord v "B" = None ∧
  ∃ ids',
    persistedIds
      (savedConfig
         (handleRecordUpdate v None Sample.C "Done" [Sample.A; Sample.C]
            addToColumn)) "Done"
    = Some ids' ∧
    "B" ∉ ids'.
Proof.
  intros v. split; [reflexivity|].
  apply (unresolvable_ids_are_dropped v None Sample.C "Done"
           [Sample.A; Sample.C] addToColumn ["A"; "B"] "B").
  - apply sample_board_resolvesById.
  - intros r Hr.
    repeat (apply elem_of_cons in Hr as [->|Hr]; [by eexists|]).
    by apply elem_of_nil in Hr.
  - reflexivity.
  - reflexivity.
  - apply list_elem_of_further, list_elem_of_here.
  - reflexivity.
Defined.

(** ** Running the handler again *)

(** The reconciliation reads the records of the config through their ids. *)
Lemma indexOfId_ids i (l : list DataRecord) :
  indexOfId i l = fst <$> list_find (λ x, x = i) (rec_id <$> l).
Proof.
  unfold indexOfId. rewrite list_find_fmap.
  by destruct (list_find _ l) as [[k r]|].
Qed.

Lemma indexOfId_congr i (l l' : list DataRecord) :
  rec_id <$> l = rec_id <$> l' → indexOfId i l = indexOfId i l'.
Proof. intros Hids. by rewrite !indexOfId_ids, Hids. Qed.

Lemma removeFirstId_congr i (l l' : list DataRecord) :
  rec_id <$> l = rec_id <$> l' →
  rec_id <$> removeFirstId i l = rec_id <$> removeFirstId i l'.
Proof.
  intros Hids. unfold removeFirstId. rewrite (indexOfId_congr i l l' Hids).
  destruct (indexOfId i l'); [|done].
  by rewrite !fmap_app, !fmap_take, !fmap_drop, Hids.
Qed.

Lemma filterPosition_congr record records (l l' : list DataRecord) :
  rec_id <$> l = rec_id <$> l' →
  filterPosition record records l = filterPosition record records l'.
Proof.
  intros Hids. unfold filterPosition.
  assert (length l = length l') as ->
    by (by rewrite <- (length_fmap rec_id l), Hids, length_fmap).
  assert (∀ x, JsArray.findIndex (sameId x) l
               = JsArray.findIndex (sameId x) l') as Hfind.
  { intros x. by rewrite !indexOfId_findIndex, (indexOfId_congr _ l l'). }
  destruct (JsArray.get records _) as [b|], (JsArray.get records _) as [a|];
    by rewrite ?Hfind.
Qed.

Lemma insertAt_ids n record (l : list DataRecord) :
  rec_id <$> insertAt n record l
  = insertAt n (rec_id record) (rec_id <$> l).
Proof.
  unfold insertAt. by rewrite fmap_app, fmap_cons, fmap_take, fmap_drop.
Qed.

Lemma placeRecord_congr v record records trigger (l l' : list DataRecord) :
  rec_id <$> l = rec_id <$> l' →
  rec_id <$> placeRecord v record records trigger l
  = rec_id <$> placeRecord v record records trigger l'.
Proof.
  intros Hids.
  pose proof (removeFirstId_congr (rec_id record) l l' Hids) as Hstripped.
  rewrite !placeRecord_cases. cbv zeta.
  destruct trigger; [|done|by destruct (hasSort v)].
  destruct (hasSort v).
  - rewrite Hids. destruct (decide _); [done|].
    by rewrite !fmap_app, Hids.
  - destruct (hasFilter v); [|done].
    rewrite !splice_filterPosition, !insertAt_ids.
    by rewrite (filterPosition_congr _ _ _ _ Hstripped), Hstripped.
Qed.

Lemma remainingRecords_congr record records (l l' : list DataRecord) :
  rec_id <$> l = rec_id <$> l' →
  remainingRecords record records l = remainingRecords record records l'.
Proof.
  intros Hids. unfold remainingRecords. apply list_filter_iff.
  intros r. by rewrite !find_sameId_none, Hids.
Qed.

Lemma reconcile_congr v record records trigger (l l' : list DataRecord) :
  rec_id <$> l = rec_id <$> l' →
  rec_id <$> reconcile v record records trigger l
  = rec_id <$> reconcile v record records trigger l'.
Proof.
  intros Hids. unfold reconcile. cbv zeta.
  pose proof (placeRecord_congr v record records trigger l l' Hids) as Hplaced.
  by rewrite !fmap_app, Hplaced, (remainingRecords_congr _ _ _ _ Hplaced).
Qed.

(** No record of the column as shown remains to be appended when the list
    of the config is the result of a reconciliation for the same event. *)
Lemma removeFirstId_keeps i j (l : list DataRecord) :
  j ∈ rec_id <$> l → j ≠ i → j ∈ rec_id <$> removeFirstId i l.
Proof.
  intros Hj Hne. destruct (indexOfId i l) as [k|] eqn:Hk.
  - destruct (removeFirstId_middle i l k Hk) as (r & Hid & Hl & ->).
    rewrite Hl in Hj. rewrite fmap_app, fmap_cons, elem_of_app, elem_of_cons in Hj.
    rewrite fmap_app, elem_of_app. naive_solver.
  - rewrite removeFirstId_absent; [done|by apply indexOfId_None].
Qed.

Lemma placeRecord_keeps v record records trigger (l : list DataRecord) j :
  j ∈ rec_id <$> l → j ≠ rec_id record →
  j ∈ rec_id <$> placeRecord v record records trigger l.
Proof.
  intros Hj Hne. rewrite placeRecord_ids_perm.
  pose proof (removeFirstId_keeps (rec_id record) j l Hj Hne) as Hkept.
  destruct trigger, (hasSort v), (hasFilter v);
    try (destruct (decide _)); rewrite ?elem_of_cons; auto.
Qed.

Lemma remainingRecords_nil record records (l : list DataRecord) :
  (∀ r, r ∈ records → rec_id r ≠ rec_id record → rec_id r ∈ rec_id <$> l) →
  remainingRecords record records l = [].
Proof.
  intros Hall. destruct (remainingRecords record records l) as [|r rs] eqn:Hrs;
    [done|].
  assert (r ∈ remainingRecords record records l) as Hr by (rewrite Hrs; left).
  apply elem_of_remainingRecords in Hr as (Hin & Hne & Hnotin).
  by destruct Hnotin; apply Hall.
Qed.

Lemma reconcile_again v record records trigger (l : list DataRecord) :
  let first := reconcile v record records trigger l in
  reconcile v record records trigger first
  = placeRecord v record records trigger first.
Proof.
  intros first. unfold reconcile at 1. cbv zeta.
  rewrite remainingRecords_nil; [by rewrite app_nil_r|].
  intros r Hr Hne. apply placeRecord_keeps; [|done].
  subst first. unfold reconcile. cbv zeta. rewrite fmap_app, elem_of_app.
  destruct (decide (rec_id r ∈ rec_id <$> placeRecord v record records trigger l))
    as [Hin|Hnotin]; [by left|right].
  apply list_elem_of_fmap_2. by apply elem_of_remainingRecords.
Qed.

Lemma reconcile_shown_again v record records trigger :
  reconcile v record records trigger records
  = placeRecord v record records trigger records.
Proof.
  unfold reconcile. cbv zeta.
  rewrite remainingRecords_nil; [by rewrite app_nil_r|].
  intros r Hr Hne. apply placeRecord_keeps; [|done].
  by apply list_elem_of_fmap_2.
Qed.

Lemma indexOfId_middle_id i (pre post : list DataRecord) r :
  rec_id r = i →
  Forall (λ x, rec_id x ≠ i) pre →
  indexOfId i (pre ++ r :: post) = Some (length pre).
Proof. intros <- Hpre. by apply indexOfId_middle. Qed.

Lemma removeFirstId_at_middle i (pre post : list DataRecord) r :
  rec_id r = i →
  Forall (λ x, rec_id x ≠ i) pre →
  removeFirstId i (pre ++ r :: post) = pre ++ post.
Proof.
  intros Hr Hpre. unfold removeFirstId.
  rewrite (indexOfId_middle_id i pre post r Hr Hpre).
  rewrite take_app_length. f_equal.
  rewrite (cons_middle r pre post), app_assoc.
  apply drop_app_length'. rewrite length_app. simpl. lia.
Qed.

Lemma indexOfId_app_l i (l1 l2 : list DataRecord) k :
  indexOfId i l1 = Some k → indexOfId i (l1 ++ l2) = Some k.
Proof.
  unfold indexOfId. rewrite !fmap_Some.
  intros ([k' r] & Hfind & ->). exists (k', r). split; [|done].
  by apply list_find_app_l.
Qed.

Lemma indexOfId_is_Some i (l : list DataRecord) :
  i ∈ rec_id <$> l → is_Some (indexOfId i l).
Proof.
  intros Hi. destruct (indexOfId i l) eqn:Hk; [done|].
  by apply indexOfId_None in Hk.
Qed.

Lemma NoDup_ids_middle (pre post : list DataRecord) r :
  NoDup (rec_id <$> pre ++ r :: post) →
  Forall (λ x, rec_id x ≠ rec_id r) pre ∧
  Forall (λ x, rec_id x ≠ rec_id r) post.
Proof.
  rewrite fmap_app, fmap_cons. intros (_ & Hdisj & Htail)%NoDup_app.
  apply NoDup_cons in Htail as [Hpost _].
  split; apply Forall_forall; intros x Hx Heq.
  - apply (Hdisj (rec_id x)); [by apply list_elem_of_fmap_2|].
    rewrite Heq. left.
  - apply Hpost. rewrite <- Heq. by apply list_elem_of_fmap_2.
Qed.

Lemma insertAt_app_le {A} (n : nat) (x : A) (l k : list A) :
  (n ≤ length l)%nat → insertAt n x (l ++ k) = insertAt n x l ++ k.
Proof.
  intros Hn. unfold insertAt.
  by rewrite take_app_le, drop_app_le, <- app_assoc by done.
Qed.

Lemma head_remainingRecords record a post (l : list DataRecord) :
  rec_id a ≠ rec_id record →
  rec_id a ∉ rec_id <$> l →
  ∃ rest, remainingRecords record (a :: post) l = a :: rest.
Proof.
  intros Hne Hnotin. unfold remainingRecords. rewrite filter_cons.
  rewrite decide_True; [by eexists|].
  split; [done|]. by apply find_sameId_none.
Qed.

Lemma remainingRecords_skip record r post (l : list DataRecord) :
  rec_id r = rec_id record →
  remainingRecords record (r :: post) l = remainingRecords record post l.
Proof.
  intros Hr. unfold remainingRecords. rewrite filter_cons.
  by rewrite decide_False by (by intros [? _]).
Qed.

(** Under a filter, the list in which a record has been placed between its
    neighbours is left as it is when the same record is placed again,
    provided its previous neighbour was in the list of the config. *)
Lemma add_under_filter_settled v record pre r post configRecords :
  hasSort v = false →
  hasFilter v = true →
  NoDup (rec_id <$> configRecords) →
  NoDup (rec_id <$> pre ++ r :: post) →
  rec_id r = rec_id record →
  (∀ b, last pre = Some b → rec_id b ∈ rec_id <$> configRecords) →
  let records := pre ++ r :: post in
  let first := reconcile v record records addToColumn configRecords in
  placeRecord v record records addToColumn first = first.
Proof.
  intros Hsort Hfilter Hcfg Hrecords Hr Hprev records first.
  destruct (NoDup_ids_middle pre post r Hrecords) as [Hpre Hpost].
  rewrite Hr in Hpre, Hpost.
  set (stripped := removeFirstId (rec_id record) configRecords).
  assert (rec_id record ∉ rec_id <$> stripped) as Hgone
    by by apply removeFirstId_NoDup.
  set (resolved := λ o : option DataRecord,
         o ≫= λ x, indexOfId (rec_id x) stripped).
  set (n := match resolved (last pre) with
            | Some i => S i
            | None => default (length stripped) (resolved (head post))
            end).
  assert (n ≤ length stripped)%nat as Hn.
  { subst n resolved. cbv beta.
    destruct (last pre) as [b|]; simpl.
    - destruct (indexOfId (rec_id b) stripped) as [i|] eqn:Hi; simpl.
      + apply indexOfId_lt in Hi. lia.
      + destruct (head post) as [a|]; simpl; [|done].
        destruct (indexOfId (rec_id a) stripped) as [j|] eqn:Hj; simpl; [|done].
        apply indexOfId_lt in Hj. lia.
    - destruct (head post) as [a|]; simpl; [|done].
      destruct (indexOfId (rec_id a) stripped) as [j|] eqn:Hj; simpl; [|done].
      apply indexOfId_lt in Hj. lia. }
  assert (placeRecord v record records addToColumn configRecords
          = insertAt n record stripped) as Hplaced.
  { rewrite placeRecord_cases. cbv zeta. rewrite Hsort, Hfilter.
    fold stripped. rewrite splice_filterPosition. subst records.
    rewrite filterPosition_neighbours by done. by rewrite Nat2Z.id. }
  set (drift := remainingRecords record records (insertAt n record stripped)).
  assert (first = insertAt n record stripped ++ drift) as Hfirst.
  { subst first drift. unfold reconcile. cbv zeta. by rewrite Hplaced. }
  assert (removeFirstId (rec_id record) first = stripped ++ drift) as Hagain.
  { rewrite Hfirst. unfold insertAt. rewrite <- app_assoc. simpl.
    rewrite removeFirstId_at_middle; [|done|].
    - by rewrite app_assoc, take_drop.
    - apply Forall_forall. intros x Hx Heq. apply Hgone.
      rewrite <- Heq. apply list_elem_of_fmap_2.
      by eapply elem_of_sublist; [|apply sublist_take]. }
  assert (Hinplaced : ∀ i, i ∈ rec_id <$> insertAt n record stripped ↔
                           i = rec_id record ∨ i ∈ rec_id <$> stripped).
  { intros i. by rewrite insertAt_ids, insertAt_perm, elem_of_cons. }
  assert (filterPosition record records (stripped ++ drift) = Z.of_nat n)
    as Hposition.
  { subst records. rewrite filterPosition_neighbours by done. f_equal.
    unfold n, resolved.
    destruct (last pre) as [b|] eqn:Hlast; simpl.
    - assert (rec_id b ≠ rec_id record) as Hb.
      { rewrite Forall_forall in Hpre. apply Hpre.
        apply last_Some in Hlast as [pre' ->]. set_solver. }
      destruct (indexOfId_is_Some (rec_id b) stripped) as [i Hi].
      { apply removeFirstId_keeps; [by apply Hprev|done]. }
      by rewrite Hi, (indexOfId_app_l _ _ _ _ Hi).
    - apply last_None in Hlast. subst pre.
      destruct post as [|a post']; simpl.
      + subst drift. simpl. rewrite remainingRecords_skip by done.
        by rewrite length_app, Nat.add_0_r.
      + destruct (indexOfId (rec_id a) stripped) as [j|] eqn:Hj; simpl.
        * by rewrite (indexOfId_app_l _ _ _ _ Hj).
        * apply indexOfId_None in Hj.
          assert (rec_id a ≠ rec_id record) as Ha by by inversion Hpost.
          destruct (head_remainingRecords record a post'
                      (insertAt n record stripped)) as [rest Hrest];
            [done|by rewrite Hinplaced; intros [?|?]|].
          subst drift. simpl. rewrite remainingRecords_skip by done.
          rewrite Hrest, indexOfId_middle_id; [done|done|].
          apply Forall_forall. intros x Hx Heq. apply Hj. rewrite <- Heq.
          by apply list_elem_of_fmap_2. }
  rewrite placeRecord_cases. cbv zeta. rewrite Hsort, Hfilter, Hagain.
  rewrite splice_filterPosition, Hposition, Nat2Z.id.
  by rewrite insertAt_app_le, Hfirst.
Qed.

Lemma reconcile_ids_subseteq v record records trigger configRecords i :
  i ∈ rec_id <$> reconcile v record records trigger configRecords →
  i = rec_id record ∨ i ∈ rec_id <$> configRecords ∨ i ∈ rec_id <$> records.
Proof.
  unfold reconcile. cbv zeta. rewrite fmap_app, elem_of_app.
  intros [Hplaced|Hremaining].
  - apply placeRecord_ids_subseteq in Hplaced. tauto.
  - right. right. apply list_elem_of_fmap in Hremaining as (r & -> & Hr).
    apply elem_of_remainingRecords in Hr as (Hin & _).
    by apply list_elem_of_fmap_2.
Qed.

(** The list reconciled from the config is left as it is when the mutated
    record is placed in it again. *)
Lemma reconcile_settled v record records trigger configRecords :
  NoDup (rec_id <$> configRecords) →
  NoDup (rec_id <$> records) →
  (trigger = addToColumn → hasSort v = false → hasFilter v = true →
   ∃ pre r post, records = pre ++ r :: post ∧ rec_id r = rec_id record ∧
     ∀ b, last pre = Some b → rec_id b ∈ rec_id <$> configRecords) →
  let first := reconcile v record records trigger configRecords in
  placeRecord v record records trigger first = first.
Proof.
  intros Hcfg Hrecords Hneighbour first.
  assert (placeRecord v record records trigger configRecords
          = removeFirstId (rec_id record) configRecords →
          removeFirstId (rec_id record) first = first) as Hstrip.
  { intros Hplaced. apply removeFirstId_absent.
    subst first. unfold reconcile. cbv zeta.
    rewrite Hplaced, fmap_app, elem_of_app. intros [Hin|Hin].
    - by apply (removeFirstId_NoDup (rec_id record) configRecords).
    - apply list_elem_of_fmap in Hin as (r & Hid & Hr).
      by apply elem_of_remainingRecords in Hr as (_ & Hne & _). }
  pose proof (placeRecord_cases v record records trigger configRecords)
    as Hinner. cbv zeta in Hinner.
  rewrite placeRecord_cases. cbv zeta.
  destruct trigger.
  - destruct (hasSort v) eqn:Hsort.
    + rewrite decide_True; [done|].
      subst first. unfold reconcile. cbv zeta. rewrite Hinner.
      destruct (decide _) as [Hin|Hnotin]; rewrite !fmap_app; set_solver.
    + destruct (hasFilter v) eqn:Hfilter; [|by apply Hstrip].
      destruct Hneighbour as (pre & r & post & -> & Hr & Hprev); try done.
      pose proof (add_under_filter_settled v record pre r post configRecords
                    Hsort Hfilter Hcfg Hrecords Hr Hprev) as Hsettled.
      cbv zeta in Hsettled. fold first in Hsettled.
      rewrite placeRecord_cases in Hsettled. cbv zeta in Hsettled.
      by rewrite Hsort, Hfilter in Hsettled.
  - by apply Hstrip.
  - destruct (hasSort v); [done|by apply Hstrip].
Qed.

(** The column as shown, taken as the list of the config, is left as it is
    up to the record with the id of the mutated one. *)
Lemma shown_settled v record records trigger :
  hasSort v || hasFilter v = true →
  NoDup (rec_id <$> records) →
  (trigger = addToColumn → rec_id record ∈ rec_id <$> records) →
  (trigger = removeFromColumn → rec_id record ∉ rec_id <$> records) →
  (trigger = reorderWithinColumn → hasSort v = true) →
  rec_id <$> placeRecord v record records trigger records
  = rec_id <$> records.
Proof.
  intros Hactive Hrecords Hadd Hremove Hreorder.
  rewrite placeRecord_cases. cbv zeta. destruct trigger.
  - destruct (hasSort v) eqn:Hsort; [by rewrite decide_True by auto|].
    simpl in Hactive. rewrite Hactive.
    pose proof (Hadd eq_refl) as Hmem.
    apply list_elem_of_fmap in Hmem as (r & Hr & Hin).
    apply list_elem_of_split in Hin as (pre & post & ->).
    destruct (NoDup_ids_middle pre post r Hrecords) as [Hpre Hpost].
    rewrite splice_filterPosition.
    rewrite filterPosition_neighbours by (by rewrite ?Hr).
    rewrite Hr, removeFirstId_at_middle by done. rewrite Nat2Z.id.
    assert (match last pre ≫= (λ x, indexOfId (rec_id x) (pre ++ post)) with
            | Some i => S i
            | None => default (length (pre ++ post))
                        (head post ≫= λ x, indexOfId (rec_id x) (pre ++ post))
            end = length pre) as ->.
    { destruct pre as [|b pre' _] using rev_ind.
      - simpl. destruct post as [|a post']; [done|]. simpl.
        pose proof (indexOfId_middle_id (rec_id a) [] post' a eq_refl
                      (Forall_nil_2 _)) as Hhead.
        simpl in Hhead. by rewrite Hhead.
      - rewrite last_snoc. simpl. rewrite <- app_assoc. simpl.
        rewrite (indexOfId_middle_id (rec_id b) pre' post b); [|done|].
        + rewrite length_app. simpl. lia.
        + rewrite <- app_assoc in Hrecords.
          by destruct (NoDup_ids_middle pre' ([r] ++ post) b Hrecords). }
    unfold insertAt. rewrite take_app_length, drop_app_length.
    by rewrite !fmap_app, !fmap_cons, Hr.
  - by rewrite removeFirstId_absent by auto.
  - by rewrite Hreorder.
Qed.

Lemma handleRecordUpdate_view v g record column records trigger :
  (handleRecordUpdate v g record column records trigger).1
  = setConfig v
      (Some (recordsConfig v column
        (finalRecords v (stampGroupBy g column trigger record)
           column records trigger).1)).
Proof.
  unfold handleRecordUpdate.
  by destruct (finalRecords _ _ _ _ _) as [recs loaded].
Qed.

Lemma reconcile_setConfig v cfg record records trigger configRecords :
  reconcile (setConfig v cfg) record records trigger configRecords
  = reconcile v record records trigger configRecords.
Proof. done. Qed.

Lemma mapDefined_ids_all v (ids : list string) :
  resolvesById v →
  Forall (λ i, is_Some (getRecord v i)) ids →
  rec_id <$> mapDefined (getRecord v) ids = ids.
Proof.
  intros Hres Hall. rewrite mapDefined_ids by done.
  induction Hall as [|i ids Hi Hall IH]; [done|].
  rewrite filter_cons, decide_True by done. by rewrite IH.
Qed.

(** C6, as stated, fails.  With a filter and no sort, [C] persisted, and
    [B] dropped at the end of a column shown as [C, A, B] (the record [A] is
    in the column but not in the config): the first run persists [C, B, A];
    the second run, reading that config, persists [C, A, B]. *)
Lemma idempotence_counterexample :
  let v := Sample.board false true [Sample.A; Sample.B; Sample.C]
             (Some (Sample.persisted "Done" ["C"])) in
  let records := [Sample.C; Sample.A; Sample.B] in
  let first := handleRecordUpdate v None Sample.B "Done" records addToColumn in
  let second :=
    handleRecordUpdate first.1 None Sample.B "Done" records addToColumn in
  persistedIds (savedConfig first) "Done" = Some ["C"; "B"; "A"] ∧
  persistedIds (savedConfig second) "Done" = Some ["C"; "A"; "B"] ∧
  persistedIds (savedConfig second) "Done"
  ≠ persistedIds (savedConfig first) "Done".
Proof. vm_compute. by split_and!. Qed.

(** C6, amended.  Running the handler again for the same event, on the
    config the first run saved, persists the same list of ids for the
    column when neither a sort nor a filter is active, and also, with a sort
    or a filter, when:
    - [getRecord] is a lookup by id that resolves the mutated record and the
      records of the column as shown;
    - the ids of the column as shown are distinct, and so are the ids of the
      column's list in the config;
    - the column as shown contains the mutated record on [addToColumn] and
      not on [removeFromColumn], and on [reorderWithinColumn] a sort is
      active or the column has a list in the config;
    - on [addToColumn] without a sort, the record shown just before the
      mutated one, if any, is in the column's list in the config, if any. *)
Theorem handler_is_idempotent v g record column records trigger :
  let first := handleRecordUpdate v g record column records trigger in
  let second :=
    handleRecordUpdate first.1 g record column records trigger in
  (hasSort v || hasFilter v = false →
   persistedIds (savedConfig second) column
   = persistedIds (savedConfig first) column) ∧
  (resolvesById v →
   (∀ r, r ∈ record :: records → is_Some (getRecord v (rec_id r))) →
   NoDup (rec_id <$> records) →
   (∀ ids, persistedIds (config v) column = Some ids → NoDup ids) →
   (trigger = addToColumn → rec_id record ∈ rec_id <$> records) →
   (trigger = removeFromColumn → rec_id record ∉ rec_id <$> records) →
   (trigger = reorderWithinColumn →
    hasSort v = true ∨ is_Some (persistedIds (config v) column)) →
   (trigger = addToColumn → hasSort v = false →
    ∀ ids pre b r post,
      persistedIds (config v) column = Some ids →
      records = pre ++ b :: r :: post → rec_id r = rec_id record →
      b.(rec_id) ∈ ids) →
   persistedIds (savedConfig second) column
   = persistedIds (savedConfig first) column).
Proof.
  intros first second. subst second first.
  rewrite !handleRecordUpdate_persisted, handleRecordUpdate_view.
  set (record' := stampGroupBy g column trigger record).
  assert (Hid : rec_id record' = rec_id record) by apply stampGroupBy_id.
  set (final := (finalRecords v record' column records trigger).1).
  set (v1 := setConfig v (Some (recordsConfig v column final))).
  assert (loadConfigRecords v1 column
          = Some (mapDefined (getRecord v) (rec_id <$> final))) as Hload1.
  { apply (persisted_loadConfigRecords v1). apply persistedIds_recordsConfig. }
  split.
  - intros Hinactive. subst final. unfold finalRecords. simpl.
    by rewrite Hinactive.
  - intros Hres Hlive Hrecords Hpersisted Hadd Hremove Hreorder Hprev.
    destruct (hasSort v || hasFilter v) eqn:Hactive;
      [|subst final; unfold finalRecords; simpl; by rewrite Hactive].
    f_equal. unfold finalRecords at 1. simpl. rewrite Hactive, Hload1. simpl.
    unfold v1. rewrite reconcile_setConfig.
    assert (∀ r, r ∈ records → is_Some (getRecord v (rec_id r))) as Hshown
      by (intros r Hr; apply Hlive; by right).
    assert (is_Some (getRecord v (rec_id record))) as Hmutated
      by (apply Hlive; left).
    assert (Forall (λ i, is_Some (getRecord v i)) (rec_id <$> records))
      as Hshown_ids.
    { apply Forall_forall. intros i (r & -> & Hr)%list_elem_of_fmap. auto. }
    subst final. unfold finalRecords. rewrite Hactive.
    destruct (loadConfigRecords v column) as [configRecords|] eqn:Hload; simpl.
    + apply loadConfigRecords_persisted in Hload as (ids & Hids & ->).
      set (configRecords := mapDefined (getRecord v) ids).
      assert (rec_id <$> configRecords
              = filter (λ i, is_Some (getRecord v i)) ids) as Hcfg_ids
        by by apply mapDefined_ids.
      assert (NoDup (rec_id <$> configRecords)) as Hcfg
        by (rewrite Hcfg_ids; apply NoDup_filter; by apply Hpersisted).
      set (once := reconcile v record' records trigger configRecords).
      rewrite (reconcile_congr v record' records trigger _ once).
      2:{ apply mapDefined_ids_all; [done|].
          apply Forall_forall. intros i Hi.
          apply reconcile_ids_subseteq in Hi as [->|[Hi|Hi]].
          - by rewrite Hid.
          - rewrite Hcfg_ids in Hi. by apply list_elem_of_filter in Hi as [? _].
          - rewrite Forall_forall in Hshown_ids. by apply Hshown_ids. }
      subst once. rewrite reconcile_again. cbv zeta.
      rewrite reconcile_settled; [done|done|done|].
      intros -> Hsort Hfilter.
      pose proof (Hadd eq_refl) as Hmem.
      apply list_elem_of_fmap in Hmem as (r & Hr & Hin).
      apply list_elem_of_split in Hin as (pre & post & ->).
      exists pre, r, post. split_and!; [done|by rewrite Hid|].
      intros b Hb. apply last_Some in Hb as [pre' ->].
      rewrite Hcfg_ids. apply list_elem_of_filter. split.
      * apply Hshown. set_solver.
      * apply (Hprev eq_refl Hsort ids pre' b r post Hids);
          [by rewrite <- app_assoc|done].
    + rewrite (reconcile_congr v record' records trigger _ records)
        by by apply mapDefined_ids_all.
      rewrite reconcile_shown_again.
      apply shown_settled; rewrite ?Hid; try done.
      intros Htrigger. destruct (Hreorder Htrigger) as [Hsort|[ids Hids]];
        [done|].
      apply persisted_loadConfigRecords in Hids. congruence.
Qed.

Lemma handler_is_idempotent_witness :
  let v := Sample.board false true [Sample.A; Sample.B; Sample.C]
             (Some (Sample.persisted "Done" ["A"; "C"])) in
  let records := [Sample.A; Sample.B; Sample.C] in
  let first := handleRecordUpdate v None Sample.B "Done" records addToColumn in
  let second :=
    handleRecordUpdate first.1 None Sample.B "Done" records addToColumn in
  resolvesById v ∧
  NoDup (rec_id <$> records) ∧
  persistedIds (savedConfig second) "Done"
  = persistedIds (savedConfig first) "Done".
Proof.
  intros v records first second.
  assert (resolvesById v) as Hres by apply sample_board_resolvesById.
  assert (NoDup (rec_id <$> records)) as Hrecords
    by by_evaluation.
  split; [done|]. split; [done|].
  apply (proj2 (handler_is_idempotent v None Sample.B "Done" records
                  addToColumn)); try done.
  - intros r Hr. unfold records in Hr.
    repeat (apply elem_of_cons in Hr as [->|Hr]; [by eexists|]).
    by apply elem_of_nil in Hr.
  - intros ids [= <-]. by_evaluation.
  - intros _. by_evaluation.
  - intros _ _ ids pre b r post [= <-] Hsplit Hr.
    destruct pre as [|x [|y [|z pre]]]; simplify_eq/=.
    + apply list_elem_of_here.
    + by destruct pre.
Defined.

Lemma sort_columns_rebuilds_columns_witness :
  let before :=
    mkConfig (Some "order")
      (Some {[ "Todo" := mkColumn (Some 5) (Some ["A"]) ∅;
               "Old" := mkColumn (Some 0) (Some ["B"]) ∅ ]}) ∅ in
  let v := Sample.board false false [Sample.A; Sample.B] (Some before) in
  let names := ["Doing"; "Todo"] in
  (names !! 1%nat = Some "Todo") ∧
  ("Old" ∉ names) ∧
  ∃ cfg cols,
    savedConfig (handleSortColumns v names) = Some cfg ∧
    cfg_columns cfg = Some cols ∧
    cols !! "Todo" = Some (mkColumn (Some 1) (Some ["A"]) ∅) ∧
    cols !! "Old" = None.
Proof.
  intros before v names.
  assert ("Old" ∉ names) as Hold
    by by_evaluation.
  split; [reflexivity|]. split; [done|].
  destruct (sort_columns_rebuilds_columns v names)
    as (cfg & cols & _ & Hsaved & Hcols & _ & _ & _ & Hgone & Hkept & _).
  exists cfg, cols. split_and!; [done|done| |by apply Hgone].
  rewrite (Hkept 1%nat "Todo" eq_refl); [reflexivity|].
  intros j Hj Hlookup. apply lookup_lt_Some in Hlookup. simpl in Hlookup. lia.
Defined.

(** ** The scenarios of the specification, by evaluation *)

(** No config but a sync field, no sort, no filter: adding [R] to "Todo"
    persists [R] alone and stores position 0 on it. *)
Example scenario_first_record :
  let r := Sample.note "R" in
  let v := Sample.board false false [r]
             (Some (mkConfig (Some "order") None ∅)) in
  let out := handleRecordUpdate v None r "Todo" [r] addToColumn in
  persistedIds (savedConfig out) "Todo" = Some ["R"] ∧
  updatedRecords out.2 = [Sample.noteAt "R" "order" 0].
Proof. by vm_compute. Qed.

(** A sort is active, "Doing" is persisted as [A, B], and [C] is added. *)
Example scenario_add_under_sort :
  let v := Sample.board true false [Sample.A; Sample.B; Sample.C]
             (Some (Sample.persisted "Doing" ["A"; "B"])) in
  persistedIds
    (savedConfig
       (handleRecordUpdate v None Sample.C "Doing"
          [Sample.B; Sample.C; Sample.A] addToColumn)) "Doing"
  = Some ["A"; "B"; "C"].
Proof. by vm_compute. Qed.

(** The group-by field of an added record is set to the key of the column. *)
Example scenario_group_by_stamp :
  let v := Sample.board false false [Sample.A] None in
  updatedRecords
    (handleRecordUpdate v (Some (mkField "status" "string")) Sample.A "Todo"
       [Sample.A] addToColumn).2
  = [mkRecord "A" {["status" := VString "Todo"]}].
Proof. by vm_compute. Qed.

(** Reordering the columns "Todo", "Doing", "Done" gives them the weights
    0, 1 and 2 and keeps their records. *)
Example scenario_column_reorder :
  let before :=
    mkConfig None
      (Some {[ "Done" := mkColumn (Some 0) (Some ["C"]) ∅;
               "Todo" := mkColumn (Some 1) (Some ["A"]) ∅;
               "Doing" := mkColumn (Some 2) None ∅ ]}) ∅ in
  let v := Sample.board false false [] (Some before) in
  savedConfig (handleSortColumns v ["Todo"; "Doing"; "Done"])
  = Some (mkConfig None
      (Some {[ "Todo" := mkColumn (Some 0) (Some ["A"]) ∅;
               "Doing" := mkColumn (Some 1) None ∅;
               "Done" := mkColumn (Some 2) (Some ["C"]) ∅ ]}) ∅).
Proof. by vm_compute. Qed.

(** ** Further properties of [handleRecordUpdate] *)

(** X1.  Whatever the trigger, a record event reports one new config, before
    any record update, and that config differs from the previous one in the
    record list of the target column only: the sync field, the copied
    properties, the other columns, and the weight and the copied properties
    of the target column are the previous ones. *)
Theorem record_update_touches_one_record_list
    v g record column records trigger :
  let out := handleRecordUpdate v g record column records trigger in
  ∃ cfg ups,
    savedConfig out = Some cfg ∧
    out.2 = OnConfigChange cfg :: ((λ r, UpdateRecord r (fields v)) <$> ups) ∧
    cfg_orderSyncField cfg = config v ≫= cfg_orderSyncField ∧
    cfg_rest cfg = from_option cfg_rest ∅ (config v) ∧
    (∀ k, k ≠ column → columnOf cfg k = configColumn v k) ∧
    columnOf cfg column ≫= col_weight = configColumn v column ≫= col_weight ∧
    from_option col_rest ∅ (columnOf cfg column)
    = from_option col_rest ∅ (configColumn v column).
Proof.
  intros out. subst out. eexists _, _.
  rewrite handleRecordUpdate_saved, handleRecordUpdate_effects. cbv zeta.
  split_and!; try done.
  - intros k Hk. unfold columnOf, recordsConfig, configColumn, spreadColumns.
    simpl. rewrite lookup_insert_ne by done.
    destruct (config v) as [c|]; simpl; [|done].
    by destruct (cfg_columns c).
  - unfold columnOf, recordsConfig. simpl. by rewrite lookup_insert_eq.
  - unfold columnOf, recordsConfig. simpl. by rewrite lookup_insert_eq.
Qed.

Lemma orderSyncFieldName_setConfig v cfg :
  cfg ≫= cfg_orderSyncField = config v ≫= cfg_orderSyncField →
  orderSyncFieldName (setConfig v cfg) = orderSyncFieldName v.
Proof.
  intros Hsync. unfold orderSyncFieldName, orderSyncField. simpl.
  destruct cfg as [c|], (config v) as [c'|]; simpl in *.
  - by rewrite Hsync.
  - by rewrite Hsync.
  - by rewrite <- Hsync.
  - done.
Qed.

(** X2.  Neither handler changes which field the order is synced to: the
    name the reactive [orderSyncField] resolves to is the same after a
    record event and after a column reorder. *)
Theorem handlers_keep_the_sync_field
    v g record column records trigger names :
  orderSyncFieldName
    (handleRecordUpdate v g record column records trigger).1
  = orderSyncFieldName v ∧
  orderSyncFieldName (handleSortColumns v names).1 = orderSyncFieldName v.
Proof.
  split.
  - rewrite handleRecordUpdate_view. by apply orderSyncFieldName_setConfig.
  - unfold handleSortColumns, saveConfig. simpl.
    by apply (orderSyncFieldName_setConfig v (Some _)).
Qed.

Lemma elem_of_reconcile_shown v record records trigger configRecords r :
  r ∈ records → rec_id r ≠ rec_id record →
  rec_id r ∈ rec_id <$> reconcile v record records trigger configRecords.
Proof.
  intros Hr Hne. unfold reconcile. cbv zeta. rewrite fmap_app, elem_of_app.
  destruct (decide (rec_id r ∈ rec_id <$>
              placeRecord v record records trigger configRecords))
    as [Hin|Hnotin]; [by left|right].
  apply list_elem_of_fmap_2. by apply elem_of_remainingRecords.
Qed.

(** X3.  No record of the column as shown is dropped: for every trigger and
    every combination of sort and filter, the id of each record of the list
    handed in, other than the mutated record, is in the list that is
    persisted. *)
Theorem shown_records_are_persisted
    v g record column records trigger r :
  r ∈ records →
  rec_id r ≠ rec_id record →
  ∃ ids,
    persistedIds
      (savedConfig (handleRecordUpdate v g record column records trigger))
      column = Some ids ∧
    rec_id r ∈ ids.
Proof.
  intros Hr Hne. eexists. split; [apply handleRecordUpdate_persisted|].
  unfold finalRecords.
  destruct (hasSort v || hasFilter v);
    [|by apply list_elem_of_fmap_2].
  destruct (loadConfigRecords v column) as [configRecords|];
    [|by apply list_elem_of_fmap_2].
  simpl. apply elem_of_reconcile_shown; [done|].
  by rewrite stampGroupBy_id.
Qed.

Lemma shown_records_are_persisted_witness :
  let v := Sample.board false true [Sample.A; Sample.B; Sample.C]
             (Some (Sample.persisted "Done" ["C"])) in
  ∃ ids,
    persistedIds
      (savedConfig
         (handleRecordUpdate v None Sample.B "Done"
            [Sample.C; Sample.A; Sample.B] removeFromColumn)) "Done"
    = Some ids ∧
    "A" ∈ ids.
Proof.
  intros v.
  apply (shown_records_are_persisted v None Sample.B "Done"
           [Sample.C; Sample.A; Sample.B] removeFromColumn Sample.A).
  - apply list_elem_of_further, list_elem_of_here.
  - discriminate.
Defined.

(** X4.  An added record is never lost: on [addToColumn], its id is in the
    list that is persisted whenever it is in the list handed in, or a sort
    or filter is active and the column has a list in the config. *)
Theorem added_record_is_persisted v g record column records :
  rec_id record ∈ rec_id <$> records ∨
  (hasSort v || hasFilter v = true ∧
   is_Some (persistedIds (config v) column)) →
  ∃ ids,
    persistedIds
      (savedConfig (handleRecordUpdate v g record column records addToColumn))
      column = Some ids ∧
    rec_id record ∈ ids.
Proof.
  intros Hcase. eexists. split; [apply handleRecordUpdate_persisted|].
  set (record' := stampGroupBy g column addToColumn record).
  assert (Hid : rec_id record' = rec_id record) by apply stampGroupBy_id.
  assert (∀ configRecords,
            hasSort v || hasFilter v = true →
            rec_id record ∈ rec_id <$>
              reconcile v record' records addToColumn configRecords)
    as Hplaced.
  { intros configRecords Hactive. unfold reconcile. cbv zeta.
    rewrite fmap_app, elem_of_app. left.
    rewrite placeRecord_ids_perm, Hid. cbv zeta.
    destruct (hasSort v); simpl in Hactive.
    - destruct (decide _) as [Hin|Hnotin]; [done|left].
    - rewrite Hactive. left. }
  unfold finalRecords.
  destruct (hasSort v || hasFilter v) eqn:Hactive.
  - destruct (loadConfigRecords v column) as [configRecords|] eqn:Hload.
    + by apply Hplaced.
    + destruct Hcase as [Hshown|[_ [ids Hids]]]; [done|].
      apply persisted_loadConfigRecords in Hids. congruence.
  - by destruct Hcase as [Hshown|[? _]].
Qed.

Lemma added_record_is_persisted_witness :
  let v := Sample.board true false [Sample.A; Sample.B]
             (Some (Sample.persisted "Doing" ["A"; "B"])) in
  ∃ ids,
    persistedIds
      (savedConfig
         (handleRecordUpdate v None Sample.C "Doing" [] addToColumn)) "Doing"
    = Some ids ∧
    "C" ∈ ids.
Proof.
  intros v.
  apply (added_record_is_persisted v None Sample.C "Doing" []).
  right. split; [reflexivity|]. by eexists.
Defined.

(** X5.  A removed record is gone: on [removeFromColumn] with a sort or
    filter active, when the column's list in the config has no repeated id
    and [getRecord] is a lookup by id, the id of the mutated record is not
    in the list that is persisted, even if the list handed in still shows
    the record. *)
Theorem removed_record_is_not_persisted v g record column records ids :
  resolvesById v →
  hasSort v || hasFilter v = true →
  persistedIds (config v) column = Some ids →
  NoDup ids →
  ∃ ids',
    persistedIds
      (savedConfig
         (handleRecordUpdate v g record column records removeFromColumn))
      column = Some ids' ∧
    rec_id record ∉ ids'.
Proof.
  intros Hres Hactive Hids Hnd.
  eexists. split; [apply handleRecordUpdate_persisted|].
  rewrite (finalRecords_loaded _ _ _ _ _ _ Hactive
             (persisted_loadConfigRecords _ _ _ Hids)).
  simpl. unfold reconcile. cbv zeta. rewrite fmap_app, elem_of_app.
  rewrite placeRecord_cases. cbv zeta. rewrite stampGroupBy_id.
  intros [Hin|Hin].
  - revert Hin. apply removeFirstId_NoDup.
    rewrite mapDefined_ids by done. by apply NoDup_filter.
  - apply list_elem_of_fmap in Hin as (r & Hid & Hr).
    apply elem_of_remainingRecords in Hr as (_ & Hne & _).
    by rewrite stampGroupBy_id in Hne.
Qed.

Lemma removed_record_is_not_persisted_witness :
  let v := Sample.board false true [Sample.A; Sample.B; Sample.C]
             (Some (Sample.persisted "Done" ["A"; "B"; "C"])) in
  ∃ ids',
    persistedIds
      (savedConfig
         (handleRecordUpdate v None Sample.B "Done"
            [Sample.A; Sample.B; Sample.C] removeFromColumn)) "Done"
    = Some ids' ∧
    "B" ∉ ids'.
Proof.
  intros v.
  apply (removed_record_is_not_persisted v None Sample.B "Done"
           [Sample.A; Sample.B; Sample.C] ["A"; "B"; "C"]).
  - apply sample_board_resolvesById.
  - reflexivity.
  - reflexivity.
  - by_evaluation.
Defined.

Lemma insertAt_sublist {A} (n : nat) (x : A) (l : list A) :
  l `sublist_of` insertAt n x l.
Proof.
  unfold insertAt. rewrite <- (take_drop n l) at 1.
  apply sublist_app; [done|]. by apply sublist_cons.
Qed.

(** X6.  Reconciliation never reorders the records of the config: with a
    sort or filter active and the column's list resolving to
    [configRecords], the records of [configRecords] other than the mutated
    one appear in the final list in the order they had, for every trigger.
    Records hidden by a filter keep their place among the others. *)
Theorem config_records_keep_their_order
    v g record column records trigger configRecords :
  hasSort v || hasFilter v = true →
  loadConfigRecords v column = Some configRecords →
  removeFirstId (rec_id record) configRecords
  `sublist_of`
  (finalRecords v (stampGroupBy g column trigger record)
     column records trigger).1.
Proof.
  intros Hactive Hload.
  rewrite (finalRecords_loaded _ _ _ _ _ _ Hactive Hload). simpl.
  unfold reconcile. cbv zeta. apply sublist_inserts_r.
  rewrite placeRecord_cases. cbv zeta. rewrite stampGroupBy_id.
  pose proof (removeFirstId_sublist (rec_id record) configRecords) as Hsub.
  destruct trigger; [|done|by destruct (hasSort v)].
  destruct (hasSort v).
  - destruct (decide _); [done|]. by apply sublist_inserts_r.
  - destruct (hasFilter v); [|done].
    rewrite splice_filterPosition. apply insertAt_sublist.
Qed.

Lemma config_records_keep_their_order_witness :
  let hidden := Sample.note "X" in
  let v := Sample.board false true [Sample.A; hidden; Sample.B; Sample.C]
             (Some (Sample.persisted "Done" ["A"; "X"; "B"; "C"])) in
  [Sample.A; hidden; Sample.C]
  `sublist_of`
  (finalRecords v Sample.B "Done" [Sample.B; Sample.A; Sample.C]
     addToColumn).1.
Proof.
  intros hidden v.
  apply (config_records_keep_their_order v None Sample.B "Done"
           [Sample.B; Sample.A; Sample.C] addToColumn
           [Sample.A; hidden; Sample.B; Sample.C]); reflexivity.
Defined.

(** X7.  Under a filter without a sort, the index at which an added record
    is spliced into the list of the config is always within the list, also
    when the record or its neighbours are not found ([findIndex] giving
    [-1]): the list grows by one and the record is at that index. *)
Theorem filter_position_is_in_bounds v record records configRecords :
  hasSort v = false →
  hasFilter v = true →
  let stripped := removeFirstId (rec_id record) configRecords in
  let position := filterPosition record records stripped in
  let placed := placeRecord v record records addToColumn configRecords in
  0 ≤ position ≤ Z.of_nat (length stripped) ∧
  length placed = S (length stripped) ∧
  placed !! Z.to_nat position = Some record.
Proof.
  intros Hsort Hfilter stripped position placed.
  pose proof (filterPosition_range record records stripped) as Hrange.
  fold position in Hrange. split; [done|].
  assert (placed = insertAt (Z.to_nat position) record stripped) as ->.
  { subst placed. rewrite placeRecord_cases. cbv zeta.
    rewrite Hsort, Hfilter. apply splice_filterPosition. }
  unfold insertAt. split.
  - rewrite length_app. simpl. rewrite length_take, length_drop. lia.
  - rewrite lookup_app_r by (rewrite length_take; lia).
    rewrite length_take.
    by replace (Z.to_nat position - Z.to_nat position `min` length stripped)%nat
      with 0%nat by lia.
Qed.

Lemma filter_position_is_in_bounds_witness :
  let v := Sample.board false true [Sample.A; Sample.C]
             (Some (Sample.persisted "Done" ["A"; "C"])) in
  placeRecord v Sample.B [] addToColumn [Sample.A; Sample.C]
  !! Z.to_nat (filterPosition Sample.B [] [Sample.A; Sample.C])
  = Some Sample.B.
Proof.
  intros v.
  apply (filter_position_is_in_bounds v Sample.B [] [Sample.A; Sample.C]);
    reflexivity.
Defined.

(** X8.  The handler invents no id: with [getRecord] a lookup by id, every
    id of the list that is persisted is the id of the mutated record, an id
    of the column's previous list in the config, or the id of a record of
    the list handed in. *)
Theorem persisted_ids_come_from_the_event_or_the_config
    v g record column records trigger i :
  resolvesById v →
  (∃ ids,
     persistedIds
       (savedConfig (handleRecordUpdate v g record column records trigger))
       column = Some ids ∧ i ∈ ids) →
  i = rec_id record ∨
  i ∈ rec_id <$> records ∨
  ∃ old, persistedIds (config v) column = Some old ∧ i ∈ old.
Proof.
  intros Hres (ids & Hids & Hi).
  rewrite handleRecordUpdate_persisted in Hids. injection Hids as <-.
  unfold finalRecords in Hi.
  destruct (hasSort v || hasFilter v); [|by right; left].
  destruct (loadConfigRecords v column) as [configRecords|] eqn:Hload;
    [|by right; left].
  simpl in Hi. apply reconcile_ids_subseteq in Hi as [->|[Hi|Hi]].
  - left. apply stampGroupBy_id.
  - right. right.
    apply loadConfigRecords_persisted in Hload as (old & Hold & ->).
    exists old. split; [done|].
    rewrite mapDefined_ids in Hi by done.
    by apply list_elem_of_filter in Hi as [_ ?].
  - by right; left.
Qed.

Lemma persisted_ids_come_from_the_event_or_the_config_witness :
  let v := Sample.board true false [Sample.A; Sample.B]
             (Some (Sample.persisted "Doing" ["A"])) in
  "B" = rec_id Sample.B ∨
  "B" ∈ rec_id <$> [Sample.A] ∨
  ∃ old, persistedIds (config v) "Doing" = Some old ∧ "B" ∈ old.
Proof.
  intros v.
  apply (persisted_ids_come_from_the_event_or_the_config v None Sample.B
           "Doing" [Sample.A] addToColumn "B").
  - apply sample_board_resolvesById.
  - exists ["A"; "B"]. split; [reflexivity|].
    apply list_elem_of_further, list_elem_of_here.
Defined.

(** ** Further properties of the record updates *)

(** X9.  After a renumbering the sync field agrees with the order: with an
    order-sync field, a trigger other than [removeFromColumn], and config
    records loaded or no sort active, every record of the final order
    either stores its position already or is handed to [api.updateRecord]
    with its position in the sync field. *)
Theorem sync_field_agrees_with_order
    v g record column records trigger name i r :
  orderSyncFieldName v = Some name →
  trigger ≠ removeFromColumn →
  let record' := stampGroupBy g column trigger record in
  let final := finalRecords v record' column records trigger in
  final.2 = true ∨ hasSort v = false →
  final.1 !! i = Some r →
  rec_values r !! name = Some (VNumber (Z.of_nat i)) ∨
  ∃ u,
    u ∈ updatedRecords
          (handleRecordUpdate v g record column records trigger).2 ∧
    rec_id u = rec_id r ∧
    rec_values u !! name = Some (VNumber (Z.of_nat i)).
Proof.
  intros Hname Htrigger record' final Hbranch Hr.
  rewrite handleRecordUpdate_updates. cbv zeta.
  rewrite bool_decide_true by done. fold record' final.
  rewrite (recordsToUpdate_renumber _ _ _ _ name) by done.
  destruct (syncUpdate record' name i r) as [u|] eqn:Hu.
  - right. exists u. split; [apply elem_of_omap_imap; eauto|].
    apply syncUpdate_Some in Hu as [[Heq ->]|(_ & _ & ->)];
      by rewrite updateRecordValues_sync_lookup.
  - left. destruct (decide (rec_values r !! name
                            = Some (VNumber (Z.of_nat i)))) as [|Hdiff];
      [done|].
    assert (is_Some (syncUpdate record' name i r)) as [u Hsome]
      by (apply syncUpdate_is_Some; by right).
    congruence.
Qed.

Lemma sync_field_agrees_with_order_witness :
  let a0 := Sample.noteAt "A" "order" 0 in
  let v := Sample.board false false [a0; Sample.B]
             (Some (mkConfig (Some "order") None ∅)) in
  rec_values a0 !! "order" = Some (VNumber (Z.of_nat 0)) ∨
  ∃ u,
    u ∈ updatedRecords
          (handleRecordUpdate v None Sample.B "Todo" [a0; Sample.B]
             addToColumn).2 ∧
    rec_id u = rec_id a0 ∧
    rec_values u !! "order" = Some (VNumber (Z.of_nat 0)).
Proof.
  intros a0 v.
  apply (sync_field_agrees_with_order v None Sample.B "Todo" [a0; Sample.B]
           addToColumn "order" 0%nat a0);
    [reflexivity|discriminate|by right|reflexivity].
Defined.

(** X10.  The key of the new column travels with the added record: on
    [addToColumn] with a group-by field whose name is not empty and is not
    the sync field, every update handed to [api.updateRecord] for the
    mutated record has the key of the column in the group-by field. *)
Theorem added_record_carries_its_column
    v f record column records u :
  truthy (field_name f) = true →
  orderSyncFieldName v ≠ Some (field_name f) →
  u ∈ updatedRecords
        (handleRecordUpdate v (Some f) record column records addToColumn).2 →
  rec_id u = rec_id record →
  rec_values u !! field_name f = Some (VString column).
Proof.
  intros Hname Hsync Hu Hid.
  rewrite handleRecordUpdate_updates in Hu. cbv zeta in Hu.
  rewrite bool_decide_true in Hu by done.
  set (record' := stampGroupBy (Some f) column addToColumn record) in *.
  assert (rec_values record' !! field_name f = Some (VString column))
    as Hstamped.
  { subst record'. unfold stampGroupBy. rewrite Hname. simpl.
    apply lookup_union_Some_l. by rewrite lookup_singleton_eq. }
  unfold recordsToUpdate in Hu.
  destruct (orderSyncFieldName v) as [name|] eqn:Hsyncname.
  - destruct (_ || _).
    + apply elem_of_omap_imap in Hu as (i & r & Hr & Hu).
      apply syncUpdate_Some in Hu as [[_ ->]|(Hne & _ & ->)].
      * simpl. rewrite lookup_union_r; [done|].
        apply lookup_singleton_ne. congruence.
      * simpl in Hid. subst record'. by rewrite stampGroupBy_id in Hne.
    + apply list_elem_of_singleton in Hu. by subst u.
  - apply list_elem_of_singleton in Hu. by subst u.
Qed.

Lemma added_record_carries_its_column_witness :
  let status := mkField "status" "string" in
  let v := Sample.board false true [Sample.A; Sample.B; Sample.C]
             (Some (Sample.persistedSynced "Done" ["A"; "C"])) in
  rec_values (mkRecord "B" {["status" := VString "Done";
                            "order" := VNumber 1]})
    !! "status" = Some (VString "Done").
Proof.
  intros status v.
  apply (added_record_carries_its_column v status Sample.B "Done"
           [Sample.A; Sample.B; Sample.C]);
    [reflexivity|discriminate| |reflexivity].
  vm_compute. apply list_elem_of_further, list_elem_of_here.
Defined.

(** X11.  A sync field that does not resolve is ignored: when the config
    names no sync field, names it with the empty string, or names a field
    that the frame does not have, an event other than [removeFromColumn]
    hands exactly the mutated record to [api.updateRecord] and renumbers
    nothing. *)
Theorem unresolved_sync_field_renumbers_nothing
    v g record column records trigger :
  (∀ c name, config v = Some c → cfg_orderSyncField c = Some name →
     name = "" ∨ name ∉ field_name <$> fields v) →
  trigger ≠ removeFromColumn →
  updatedRecords (handleRecordUpdate v g record column records trigger).2
  = [stampGroupBy g column trigger record].
Proof.
  intros Hunresolved Htrigger.
  rewrite handleRecordUpdate_updates. cbv zeta.
  rewrite bool_decide_true by done.
  assert (orderSyncFieldName v = None) as Hnone.
  { unfold orderSyncFieldName, orderSyncField.
    destruct (config v) as [c|] eqn:Hc; simpl; [|done].
    destruct (cfg_orderSyncField c) as [name|] eqn:Hsync; simpl; [|done].
    destruct (Hunresolved c name eq_refl Hsync) as [->|Hmissing]; [done|].
    destruct (truthy name); simpl; [|done].
    unfold getFieldByName.
    rewrite (proj2 (find_none (λ f, field_name f = name) (fields v))); [done|].
    apply Forall_forall. intros f Hf Heq. apply Hmissing.
    rewrite <- Heq. by apply list_elem_of_fmap_2. }
  unfold recordsToUpdate. by rewrite Hnone.
Qed.

Lemma unresolved_sync_field_renumbers_nothing_witness :
  let a5 := Sample.noteAt "A" "rank" 5 in
  let v := Sample.board false false [a5; Sample.B]
             (Some (mkConfig (Some "rank") None ∅)) in
  updatedRecords
    (handleRecordUpdate v None Sample.B "Todo" [a5; Sample.B] addToColumn).2
  = [Sample.B].
Proof.
  intros a5 v.
  apply (unresolved_sync_field_renumbers_nothing v None Sample.B "Todo"
           [a5; Sample.B] addToColumn); [|discriminate].
  intros c name [= <-] [= <-]. right. by_evaluation.
Defined.

(** ** Column reorders and record events together *)

Lemma last_occurrence (names : list string) (k : string) :
  k ∈ names →
  ∃ i, names !! i = Some k ∧ ∀ j, (i < j)%nat → names !! j ≠ Some k.
Proof.
  induction names as [|x names IH] using rev_ind; [by intros ?%elem_of_nil|].
  intros Hk.
  assert (∀ j, (length names < j)%nat → (names ++ [x]) !! j ≠ Some k) as Hpast.
  { intros j Hj Hlookup. apply lookup_lt_Some in Hlookup.
    rewrite length_app in Hlookup. simpl in Hlookup. lia. }
  destruct (decide (x = k)) as [->|Hne].
  - exists (length names). split; [|done].
    by rewrite lookup_app_r, Nat.sub_diag.
  - apply elem_of_app in Hk as [Hk|Hk]; [|by apply list_elem_of_singleton in Hk].
    destruct (IH Hk) as (i & Hi & Hlast). exists i.
    split; [by apply lookup_app_l_Some|].
    intros j Hj. destruct (decide (j < length names)%nat) as [Hlt|Hge].
    + rewrite lookup_app_l by done. by apply Hlast.
    + destruct (decide (j = length names)) as [->|Hne'].
      * rewrite lookup_app_r, Nat.sub_diag by done. simpl. congruence.
      * apply Hpast. lia.
Qed.

Lemma sorted_column_in v names k :
  k ∈ names →
  ∃ i, names !! i = Some k ∧
       configColumn (handleSortColumns v names).1 k
       = Some (withWeight (configColumn v k) i).
Proof.
  intros (i & Hi & Hlast)%last_occurrence. exists i. split; [done|].
  unfold handleSortColumns, saveConfig, configColumn at 1. simpl.
  by rewrite (fromEntries_imap_last _ _ i k).
Qed.

Lemma sorted_column_notin v names k :
  k ∉ names → configColumn (handleSortColumns v names).1 k = None.
Proof.
  intros Hk. unfold handleSortColumns, saveConfig, configColumn. simpl.
  apply not_elem_of_dom. rewrite fromEntries_imap_dom.
  by rewrite elem_of_list_to_set.
Qed.

(** X12.  Reordering the columns twice with the same list of names is the
    same as doing it once: the second call saves and reports the config the
    first call saved. *)
Theorem sort_columns_twice_is_once v names :
  handleSortColumns (handleSortColumns v names).1 names
  = handleSortColumns v names.
Proof.
  set (v1 := (handleSortColumns v names).1).
  assert (fromEntries
            (imap (λ i name, (name, withWeight (configColumn v1 name) i)) names)
          = fromEntries
              (imap (λ i name, (name, withWeight (configColumn v name) i)) names))
    as Hcols.
  { apply map_eq. intros k. destruct (decide (k ∈ names)) as [Hk|Hk].
    - destruct (last_occurrence names k Hk) as (i & Hi & Hlast).
      rewrite !(fromEntries_imap_last _ _ i k) by done.
      destruct (sorted_column_in v names k Hk) as (i' & _ & Hsorted).
      fold v1 in Hsorted. by rewrite Hsorted.
    - transitivity (@None ColumnSettings); [|symmetry];
        apply not_elem_of_dom; rewrite fromEntries_imap_dom;
        by rewrite elem_of_list_to_set. }
  unfold handleSortColumns at 1. rewrite Hcols.
  by unfold handleSortColumns, saveConfig, withColumns.
Qed.

Lemma loadConfigRecords_read v column :
  loadConfigRecords v column
  = (configColumn v column ≫= col_records)
    ≫= λ ids, Some (mapDefined (getRecord v) ids).
Proof. unfold loadConfigRecords. by destruct (configColumn v column). Qed.

Lemma orderSyncFieldName_sorted v names :
  orderSyncFieldName (handleSortColumns v names).1 = orderSyncFieldName v.
Proof.
  unfold handleSortColumns, saveConfig. simpl.
  by apply (orderSyncFieldName_setConfig v (Some _)).
Qed.

(** X13.  A column reorder does not disturb the record order of the columns
    it lists: a record event in a listed column persists the same ids and
    updates the same records after the reorder as before it.  A column that
    the reorder left out has lost its list: the next record event there
    persists the list handed in as it is. *)
Theorem record_event_after_column_reorder
    v names g record column records trigger :
  let v1 := (handleSortColumns v names).1 in
  let after := handleRecordUpdate v1 g record column records trigger in
  let before := handleRecordUpdate v g record column records trigger in
  (column ∈ names →
   persistedIds (savedConfig after) column
   = persistedIds (savedConfig before) column ∧
   updatedRecords after.2 = updatedRecords before.2) ∧
  (column ∉ names →
   persistedIds (savedConfig after) column = Some (rec_id <$> records)).
Proof.
  intros v1 after before. subst after before.
  rewrite !handleRecordUpdate_persisted, !handleRecordUpdate_updates.
  cbv zeta.
  set (record' := stampGroupBy g column trigger record).
  split.
  - intros Hcolumn.
    assert (finalRecords v1 record' column records trigger
            = finalRecords v record' column records trigger) as Hfinal.
    { unfold finalRecords. rewrite !loadConfigRecords_read.
      destruct (sorted_column_in v names column Hcolumn) as (i & _ & Hsorted).
      fold v1 in Hsorted. rewrite Hsorted. simpl.
      by destruct (configColumn v column). }
    rewrite Hfinal. split; [done|].
    unfold recordsToUpdate.
    pose proof (orderSyncFieldName_sorted v names) as Hname.
    fold v1 in Hname. by rewrite Hname.
  - intros Hcolumn. unfold finalRecords. rewrite loadConfigRecords_read.
    pose proof (sorted_column_notin v names column Hcolumn) as Hgone.
    fold v1 in Hgone. rewrite Hgone. simpl. by destruct (_ || _).
Qed.

Lemma record_event_after_column_reorder_witness :
  let before :=
    mkConfig None
      (Some {[ "Todo" := mkColumn (Some 1) (Some ["A"; "C"]) ∅;
               "Done" := mkColumn (Some 0) (Some ["B"]) ∅ ]}) ∅ in
  let v := Sample.board false true [Sample.A; Sample.B; Sample.C]
             (Some before) in
  let v1 := (handleSortColumns v ["Todo"]).1 in
  "Todo" ∈ ["Todo"] ∧
  persistedIds
    (savedConfig
       (handleRecordUpdate v1 None Sample.B "Todo"
          [Sample.A; Sample.B; Sample.C] addToColumn)) "Todo"
  = persistedIds
      (savedConfig
         (handleRecordUpdate v None Sample.B "Todo"
            [Sample.A; Sample.B; Sample.C] addToColumn)) "Todo".
Proof.
  intros before v v1.
  assert ("Todo" ∈ ["Todo"]) as Hlisted by apply list_elem_of_here.
  split; [done|].
  by apply (proj1 (record_event_after_column_reorder v ["Todo"] None
                     Sample.B "Todo" [Sample.A; Sample.B; Sample.C]
                     addToColumn)).
Defined.

(** ** The plugin settings and the "create-record" command *)

(** X14.  Workspaces are only ever appended: after any number of workspace
    creations the list of workspaces is the previous list followed by the
    created ones in order, and the last workspace and view ids are
    untouched. *)
Theorem created_workspaces_are_appended
    (state : Plugin.ProjectsPluginSettings)
    (created : list Plugin.WorkspaceDefinition) :
  let state' := foldl Plugin.addWorkspace state created in
  Plugin.workspaces state' = Plugin.workspaces state ++ created ∧
  Plugin.lastWorkspaceId state' = Plugin.lastWorkspaceId state ∧
  Plugin.lastViewId state' = Plugin.lastViewId state.
Proof.
  revert state. induction created as [|w created IH]; intros state; simpl.
  - by rewrite app_nil_r.
  - destruct (IH (Plugin.addWorkspace state w)) as (Hws & Hlast & Hview).
    rewrite Hws, Hlast, Hview. simpl. by rewrite <- app_assoc.
Qed.

Lemma createRecordCheckCallback_head settings checking :
  Plugin.createRecordCheckCallback settings checking
  = match Plugin.workspaces settings with
    | [] => (false, [])
    | w :: _ =>
        (true, if checking then [] else [Plugin.OpenCreateRecordModal w])
    end.
Proof.
  unfold Plugin.createRecordCheckCallback.
  destruct (Plugin.workspaces settings); [done|]. simpl.
  by destruct checking.
Qed.

Lemma addWorkspaces_workspaces state created :
  Plugin.workspaces (foldl Plugin.addWorkspace state created)
  = Plugin.workspaces state ++ created.
Proof.
  revert state. induction created as [|w created IH]; intros state; simpl.
  - by rewrite app_nil_r.
  - rewrite IH. simpl. by rewrite <- app_assoc.
Qed.

(** X15.  From the saved data to the command: with the settings loaded from
    the saved data (or from none) and any workspaces created since, the
    "create-record" command is available exactly when the saved workspaces
    followed by the created ones are not empty; it then opens its modal for
    the first of them, and opens nothing while only checking. *)
Theorem create_record_command_after_load
    (data : option Plugin.PartialSettings)
    (created : list Plugin.WorkspaceDefinition) (checking : bool) :
  Plugin.createRecordCheckCallback
    (foldl Plugin.addWorkspace (Plugin.loadSettings data) created) checking
  = match default [] (data ≫= Plugin.saved_workspaces) ++ created with
    | [] => (false, [])
    | w :: _ =>
        (true, if checking then [] else [Plugin.OpenCreateRecordModal w])
    end.
Proof.
  rewrite createRecordCheckCallback_head, addWorkspaces_workspaces.
  assert (Plugin.workspaces (Plugin.loadSettings data)
          = default [] (data ≫= Plugin.saved_workspaces)) as ->; [|done].
  destruct data as [d|]; [|done].
  unfold Plugin.loadSettings, Plugin.assign. simpl.
  by destruct (Plugin.saved_workspaces d).
Qed.

(** X16.  The target of the "create-record" command is stable: once there
    is a workspace, creating further workspaces changes neither the flag the
    command returns nor the workspace its modal is opened for. *)
Theorem create_record_target_is_stable
    (state : Plugin.ProjectsPluginSettings)
    (created : list Plugin.WorkspaceDefinition) (checking : bool) :
  Plugin.workspaces state ≠ [] →
  Plugin.createRecordCheckCallback
    (foldl Plugin.addWorkspace state created) checking
  = Plugin.createRecordCheckCallback state checking.
Proof.
  intros Hsome.
  rewrite !createRecordCheckCallback_head, addWorkspaces_workspaces.
  by destruct (Plugin.workspaces state).
Qed.

Lemma create_record_target_is_stable_witness :
  let first := Plugin.mkWorkspace "Work" "w1" "work" true [] "" "" in
  let second := Plugin.mkWorkspace "Home" "w2" "home" false [] "" "" in
  let state := Plugin.mkSettings None None [first] in
  Plugin.createRecordCheckCallback
    (foldl Plugin.addWorkspace state [second]) false
  = (true, [Plugin.OpenCreateRecordModal first]).
Proof.
  intros first second state.
  rewrite (create_record_target_is_stable state [second] false); [done|].
  discriminate.
Defined.

(** X17.  The weights index the list of names: after a column reorder,
    every column of the saved config has a weight, and the name at that
    index of the list is the key of the column; so no two columns share a
    weight. *)
Theorem weights_index_the_names v names :
  ∃ cfg cols,
    savedConfig (handleSortColumns v names) = Some cfg ∧
    cfg_columns cfg = Some cols ∧
    (∀ k cs, cols !! k = Some cs →
       ∃ i, col_weight cs = Some (Z.of_nat i) ∧ names !! i = Some k) ∧
    (∀ k1 k2 cs1 cs2, cols !! k1 = Some cs1 → cols !! k2 = Some cs2 →
       col_weight cs1 = col_weight cs2 → k1 = k2).
Proof.
  unfold handleSortColumns, saveConfig, savedConfig. simpl.
  eexists _, _. split; [done|]. split; [done|].
  set (cols := fromEntries _).
  assert (∀ k cs, cols !! k = Some cs →
            ∃ i, col_weight cs = Some (Z.of_nat i) ∧ names !! i = Some k)
    as Hweights.
  { intros k cs Hcs.
    assert (k ∈ names) as Hk.
    { apply (elem_of_list_to_set (C := gset string)).
      rewrite <- (fromEntries_imap_dom
                    (λ i name, withWeight (configColumn v name) i) names).
      apply elem_of_dom. by eexists. }
    destruct (last_occurrence names k Hk) as (i & Hi & Hlast).
    subst cols. rewrite (fromEntries_imap_last _ _ i k) in Hcs by done.
    injection Hcs as <-. by exists i. }
  split; [done|].
  intros k1 k2 cs1 cs2 Hcs1 Hcs2 Heq.
  destruct (Hweights k1 cs1 Hcs1) as (i1 & Hw1 & Hi1).
  destruct (Hweights k2 cs2 Hcs2) as (i2 & Hw2 & Hi2).
  assert (i1 = i2) as -> by (rewrite Hw1, Hw2 in Heq; injection Heq; lia).
  congruence.
Qed.
